(** * CarND-MPC-Project: the telemetry handler of [src/main.cpp]

    A shallow embedding of the glue code around the model-predictive
    controller: the waypoint transform, the cubic fit, the latency
    projection of the vehicle state, the call of [MPC::Solve] and the
    construction of the steering message.

    Modelling conventions.
    - A C++ [double] is a real number ([R]); rounding, infinities and NaN
      are not modelled.
    - [assert] and Eigen's index checks are enabled (no [NDEBUG]); a failed
      assertion ends the run ([Abort AssertionFailed]).  An out-of-range
      [operator[]] on a [std::vector] has no defined behaviour and is
      modelled as [Abort UndefinedBehaviour].
    - The console and the socket are modelled as a trace of events. *)

From Stdlib Require Import Reals Lra ZArith Lia Ascii.
From stdpp Require Import base list strings.

Local Open Scope R_scope.

(** ** Outcomes of a run *)

Inductive abort : Type :=
| AssertionFailed
| UndefinedBehaviour.

Inductive result (A : Type) : Type :=
| Ok (a : A)
| Abort (e : abort).

Arguments Ok {A} a.
Arguments Abort {A} e.

#[global] Instance result_ret : MRet result := fun A a => Ok a.

#[global] Instance result_bind : MBind result := fun A B k m =>
  match m with
  | Ok a => k a
  | Abort e => Abort e
  end.

(** [for (int i = i0; i < i0 + n; i++) body], threading the variables the
    body assigns. *)
Fixpoint for_loop {St : Type} (i n : nat) (body : nat -> St -> result St)
  (s : St) : result St :=
  match n with
  | O => Ok s
  | S n' => s' ← body i s; for_loop (S i) n' body s'
  end.

(** ** Containers *)

(** [std::vector<double>]: reading past the end is undefined. *)
Definition std_get (v : list R) (i : nat) : result R :=
  match v !! i with
  | Some x => Ok x
  | None => Abort UndefinedBehaviour
  end.

(** [Eigen::VectorXd]: coefficient access asserts [0 <= i < size()]. *)
Abbreviation VectorXd := (list R).

Definition vec_get (v : VectorXd) (i : nat) : result R :=
  match v !! i with
  | Some x => Ok x
  | None => Abort AssertionFailed
  end.

Definition vec_set (v : VectorXd) (i : nat) (x : R) : result VectorXd :=
  if decide (i < length v)%nat then Ok (<[i:=x]> v) else Abort AssertionFailed.

(** [Eigen::MatrixXd], stored as the list of its rows. *)
Abbreviation MatrixXd := (list (list R)).

Definition mat_get (A : MatrixXd) (r c : nat) : result R :=
  match A !! r with
  | Some row => vec_get row c
  | None => Abort AssertionFailed
  end.

Definition mat_set (A : MatrixXd) (r c : nat) (x : R) : result MatrixXd :=
  match A !! r with
  | Some row => row' ← vec_set row c x; Ok (<[r:=row']> A)
  | None => Abort AssertionFailed
  end.

(** ** Constants and conversions (main.cpp, lines 13-18) *)

Definition Lf : R := 2.67.

Definition deg2rad (x : R) : R := x * PI / 180.
Definition rad2deg (x : R) : R := x * 180 / PI.

(** ** polyeval (main.cpp, lines 36-42) *)

Definition polyeval (coeffs : VectorXd) (x : R) : result R :=
  for_loop 0 (length coeffs)
    (fun i result => c ← vec_get coeffs i; Ok (result + c * x ^ i)) 0.

(** The polynomial with coefficients given lowest degree first, the
    coefficient at the head of the list multiplying [x ^ i]. *)
Fixpoint poly_sum (coeffs : list R) (i : nat) (x : R) : R :=
  match coeffs with
  | [] => 0
  | c :: cs => c * x ^ i + poly_sum cs (S i) x
  end.

Section Handler.

(** Contents of storage that was allocated and not yet written
    ([Eigen::VectorXd v(n)], [Eigen::MatrixXd A(n, m)]). *)
Variable indeterminate : R.

Definition VectorXd_new (n : nat) : VectorXd := replicate n indeterminate.
Definition MatrixXd_new (rows cols : nat) : MatrixXd :=
  replicate rows (replicate cols indeterminate).

(** Entry [k] of [A.householderQr().solve(b)].  Eigen is a library the
    program links against; only the size of the vector it returns is used
    below, and that size is the number of columns of [A]. *)
Variable qr_solution : MatrixXd -> VectorXd -> nat -> R.

Definition householderQr_solve (cols : nat) (A : MatrixXd) (b : VectorXd)
  : VectorXd :=
  qr_solution A b <$> seq 0 cols.

(** ** polyfit (main.cpp, lines 47-66) *)

Definition polyfit (xvals yvals : VectorXd) (order : Z) : result VectorXd :=
  if negb (Z.of_nat (length xvals) =? Z.of_nat (length yvals))%Z
  then Abort AssertionFailed
  else if negb ((1 <=? order)%Z && (order <=? Z.of_nat (length xvals) - 1)%Z)
  then Abort AssertionFailed
  else
    let n := length xvals in
    let A := MatrixXd_new n (Z.to_nat (order + 1)) in
    A ← for_loop 0 n (fun i A => mat_set A i 0 1) A;
    A ← for_loop 0 n (fun j A =>
           for_loop 0 (Z.to_nat order) (fun i A =>
             a ← mat_get A j i;
             xj ← vec_get xvals j;
             mat_set A j (i + 1) (a * xj)) A) A;
    Ok (householderQr_solve (Z.to_nat (order + 1)) A yvals).

(** ** The telemetry event (main.cpp, lines 88-95) *)

(** The fields read from [j[1]]. *)
Record Telemetry : Type := {
  j_ptsx : list R;
  j_ptsy : list R;
  j_x : R;
  j_y : R;
  j_psi : R;
  j_speed : R;
  j_steering_angle : R;
  j_throttle : R
}.

(** ** Waypoints in vehicle coordinates (main.cpp, lines 99-108) *)

Definition transform_waypoints (ptsx ptsy : list R) (px py psi : R)
  : result (VectorXd * VectorXd) :=
  let ptsx_v := VectorXd_new (length ptsx) in
  let ptsy_v := VectorXd_new (length ptsy) in
  for_loop 0 (length ptsx) (fun i '(ptsx_v, ptsy_v) =>
    xi ← std_get ptsx i;
    yi ← std_get ptsy i;
    let dx := xi - px in
    let dy := yi - py in
    ptsx_v ← vec_set ptsx_v i (dx * cos psi + dy * sin psi);
    ptsy_v ← vec_set ptsy_v i (dy * cos psi - dx * sin psi);
    Ok (ptsx_v, ptsy_v)) (ptsx_v, ptsy_v).

(** ** The state handed to the solver (main.cpp, lines 113-131) *)

Definition projected_state (coeffs : VectorXd) (v delta a : R)
  : result VectorXd :=
  let latency := 0.1 in
  let x_v := 0 in
  let y_v := 0 in
  let psi_v := 0 in
  p0 ← polyeval coeffs 0;
  let cte := p0 - y_v in
  c1 ← vec_get coeffs 1;
  c2 ← vec_get coeffs 2;
  c3 ← vec_get coeffs 3;
  let epsi := psi_v - atan (c1 + 2 * c2 * x_v + 3 * c3 * x_v * x_v) in
  let late_x := x_v + v * cos psi_v * latency in
  let late_y := y_v + v * sin psi_v * latency in
  let late_psi := psi_v - v / Lf * delta * latency in
  let late_v := v + a * latency in
  let late_cte := cte + v * sin psi_v * latency in
  late_c1 ← vec_get coeffs 1;
  late_c2 ← vec_get coeffs 2;
  late_c3 ← vec_get coeffs 3;
  let late_epsi :=
    late_psi
    - atan (late_c1 + 2 * late_c2 * late_x + 3 * late_c3 * late_x * late_x)
    - (v / Lf * delta * latency) in
  Ok [late_x; late_y; late_psi; late_v; late_cte; late_epsi].

(** Everything computed before [mpc.Solve] is called (lines 88-131). *)
Record SolveCall : Type := {
  ptsx_v : VectorXd;
  ptsy_v : VectorXd;
  coeffs : VectorXd;
  state : VectorXd
}.

Definition prepare_solve (t : Telemetry) : result SolveCall :=
  '(ptsx_v, ptsy_v) ←
    transform_waypoints (j_ptsx t) (j_ptsy t) (j_x t) (j_y t) (j_psi t);
  coeffs ← polyfit ptsx_v ptsy_v 3;
  state ← projected_state coeffs (j_speed t) (j_steering_angle t) (j_throttle t);
  Ok {| ptsx_v := ptsx_v; ptsy_v := ptsy_v; coeffs := coeffs; state := state |}.

(** ** The controller object *)

(** The members of [MPC] that main.cpp reads. *)
Record MPC : Type := {
  next_path_xs : list R;
  next_path_ys : list R
}.

(** [mpc.Solve(state, coeffs)]: the vector it returns and the controller
    object after the call.  MPC.cpp is not among the sources; see
    [Solve_respects_bounds] below for what the specification says of it. *)
Variable Solve : MPC -> VectorXd -> VectorXd -> list R * MPC.

(** ** The reply (main.cpp, lines 135-167) *)

Record SteerMsg : Type := {
  steering_angle : R;
  throttle : R;
  mpc_x : list R;
  mpc_y : list R;
  next_x : list R;
  next_y : list R
}.

Inductive event : Type :=
| Cout (m : SteerMsg)
| SleepFor (milliseconds : Z)
| WsSend (m : SteerMsg).

Definition steer_message (mpc : MPC) (vars : list R) (ptsx_v ptsy_v : VectorXd)
  : result SteerMsg :=
  steer_value ← std_get vars 6;
  throttle_value ← std_get vars 7;
  '(next_x_vals, next_y_vals) ←
    for_loop 0 (length ptsx_v) (fun i '(next_x_vals, next_y_vals) =>
      xi ← vec_get ptsx_v i;
      yi ← vec_get ptsy_v i;
      Ok (next_x_vals ++ [xi], next_y_vals ++ [yi])) ([], []);
  Ok {| steering_angle := - steer_value / deg2rad 25;
        throttle := throttle_value;
        mpc_x := next_path_xs mpc;
        mpc_y := next_path_ys mpc;
        next_x := next_x_vals;
        next_y := next_y_vals |}.

(** One telemetry event: the events it emits, in order, and the controller
    object it leaves behind (or the reason the run ended). *)
Definition onMessage_telemetry (mpc : MPC) (t : Telemetry)
  : list event * result MPC :=
  match prepare_solve t with
  | Abort e => ([], Abort e)
  | Ok call =>
    let '(vars, mpc) := Solve mpc (state call) (coeffs call) in
    match steer_message mpc vars (ptsx_v call) (ptsy_v call) with
    | Abort e => ([], Abort e)
    | Ok msg => ([Cout msg; SleepFor 100; WsSend msg], Ok mpc)
    end
  end.

End Handler.

(** ** What the loops compute *)

(** A waypoint [(x, y)] seen from a vehicle at [(px, py)] heading [psi]. *)
Definition vehicle_x (px py psi x y : R) : R :=
  (x - px) * cos psi + (y - py) * sin psi.

Definition vehicle_y (px py psi x y : R) : R :=
  (y - py) * cos psi - (x - px) * sin psi.

Definition waypoints_x (t : Telemetry) : list R :=
  zip_with (vehicle_x (j_x t) (j_y t) (j_psi t)) (j_ptsx t) (j_ptsy t).

Definition waypoints_y (t : Telemetry) : list R :=
  zip_with (vehicle_y (j_x t) (j_y t) (j_psi t)) (j_ptsx t) (j_ptsy t).

(** A row of the matrix the fit is solved for: the powers of [x] up to
    degree 3, as the recurrence [A(j, i + 1) = A(j, i) * xvals(j)] yields
    them. *)
Definition vandermonde_row (x : R) : list R :=
  [1; 1 * x; 1 * x * x; 1 * x * x * x].

(** The product of a matrix, stored by rows, with a vector. *)
Definition row_dot (row c : list R) : R :=
  foldr Rplus 0 (zip_with Rmult row c).

Definition mat_vec (A : list (list R)) (c : list R) : list R :=
  (fun row => row_dot row c) <$> A.

(** The coefficients of the cubic fitted to the transformed waypoints. *)
Definition fitted_coeffs (qr_solution : list (list R) -> list R -> nat -> R)
  (t : Telemetry) : list R :=
  householderQr_solve qr_solution 4
    (vandermonde_row <$> waypoints_x t) (waypoints_y t).

(** ** The kinematic model of the specification *)

Record VehicleState : Type := {
  vs_x : R;
  vs_y : R;
  vs_psi : R;
  vs_v : R;
  vs_cte : R;
  vs_epsi : R
}.

(** The update of section 4.1 of the specification, written as it stands
    there, for a reference path [f] with derivative [f']. *)
Definition KinematicModel (dt Lf : R) (f f' : R -> R) (s : VehicleState)
  (delta a : R) : VehicleState :=
  let psides := atan (f' (vs_x s)) in
  {| vs_x := vs_x s + vs_v s * cos (vs_psi s) * dt;
     vs_y := vs_y s + vs_v s * sin (vs_psi s) * dt;
     vs_psi := vs_psi s - (vs_v s / Lf) * delta * dt;
     vs_v := vs_v s + a * dt;
     vs_cte := f (vs_x s) - vs_y s + vs_v s * sin (vs_epsi s) * dt;
     vs_epsi := vs_psi s - psides + (- (vs_v s / Lf) * delta * dt) |}.

(** The reference cubic and its derivative, coefficients lowest degree
    first. *)
Definition cubic (c : list R) (x : R) : R := poly_sum c 0 x.

Definition cubic' (c : list R) (x : R) : R :=
  nth 1 c 0 + 2 * nth 2 c 0 * x + 3 * nth 3 c 0 * x ^ 2.

(** The state before the projection: the vehicle sits at the origin of its
    own frame with heading 0 and the reported speed. *)
Definition vehicle_frame_state (c : list R) (v : R) : VehicleState :=
  {| vs_x := 0;
     vs_y := 0;
     vs_psi := 0;
     vs_v := v;
     vs_cte := cubic c 0 - 0;
     vs_epsi := 0 - atan (cubic' c 0) |}.

(** Modelled from the spec: the maximal steering angle of the horizon
    configuration, which MPC.cpp (not among the sources) holds; section 8
    of the specification gives it as 25 degrees in radians, the value
    main.cpp divides by. *)
Definition max_steer : R := deg2rad 25.

(** Modelled from the spec: [MPC::Solve] lives in MPC.cpp, which is not
    among the sources.  Section 4.3 of the specification puts box
    constraints on every actuation pair of the solution: the steering angle
    stays within [-max_steer, max_steer] and the acceleration within
    [-1, 1], and no out-of-bounds actuation is ever returned.  They are
    required here of the two entries main.cpp reads, for inputs of the
    arity the solver expects. *)
Definition Solve_respects_bounds
  (Solve : MPC -> VectorXd -> VectorXd -> list R * MPC) : Prop :=
  forall (mpc : MPC) (state coeffs : VectorXd),
    length state = 6%nat -> length coeffs = 4%nat ->
    let vars := (Solve mpc state coeffs).1 in
    (forall delta0, vars !! 6%nat = Some delta0 ->
                    - max_steer <= delta0 <= max_steer) /\
    (forall a0, vars !! 7%nat = Some a0 -> -1 <= a0 <= 1).

(** ** A tick on a straight reference line *)

(** Four waypoints on the line [y = x], seen from a vehicle at the origin
    with heading 0, speed 1, steering angle 1 and no throttle. *)
Definition line_telemetry : Telemetry :=
  {| j_ptsx := [0; 1; 2; 3];
     j_ptsy := [0; 1; 2; 3];
     j_x := 0;
     j_y := 0;
     j_psi := 0;
     j_speed := 1;
     j_steering_angle := 1;
     j_throttle := 0 |}.

(** Five abscissae and four ordinates: [ptsy] is the shorter vector. *)
Definition short_ptsy_telemetry : Telemetry :=
  {| j_ptsx := [0; 1; 2; 3; 4];
     j_ptsy := [0; 1; 2; 3];
     j_x := 0;
     j_y := 0;
     j_psi := 0;
     j_speed := 1;
     j_steering_angle := 1;
     j_throttle := 0 |}.

(** The cubic through these four waypoints is the line itself. *)
Definition line_fit (A : list (list R)) (b : list R) (k : nat) : R :=
  nth k [0; 1; 0; 0] 0.

(** A solver is exact on a tick when the coefficients it returns
    interpolate the transformed waypoints.  With four waypoints of distinct
    abscissae the system is square and regular, so the least-squares
    solution is that interpolant. *)
Definition solves_exactly (qr_solution : list (list R) -> list R -> nat -> R)
  (t : Telemetry) : Prop :=
  mat_vec (vandermonde_row <$> waypoints_x t) (fitted_coeffs qr_solution t)
  = waypoints_y t.

(** A controller that asks for a quarter of a radian of steering and half
    throttle, whatever it is given. *)
Definition steady_Solve (mpc : MPC) (state coeffs : list R) : list R * MPC :=
  ([0; 0; 0; 0; 0; 0; 1/4; 1/2], mpc).

Definition idle_mpc : MPC := {| next_path_xs := []; next_path_ys := [] |}.

(** ** Further notions used to describe the numeric helpers *)

(** The row [a; a * x; a * x * x; ...] with [k + 1] entries, each entry the
    previous one times [x], as the inner loop of [polyfit] produces it. *)
Fixpoint geometric (a x : R) (k : nat) : list R :=
  match k with
  | O => [a]
  | S k' => a :: geometric (a * x) x k'
  end.

(** ** hasData (main.cpp, lines 20-33) *)

(** A [std::string] is the list of its characters; a position that is
    [npos] is [None]. *)
Fixpoint starts_with (p s : list ascii) : bool :=
  match p, s with
  | [], _ => true
  | _ :: _, [] => false
  | a :: p', b :: s' => if decide (a = b) then starts_with p' s' else false
  end.

(** [s.find(p)]: the lowest position at which [p] occurs in [s]. *)
Fixpoint str_find_from (s p : list ascii) (pos : nat) : option nat :=
  if starts_with p s then Some pos
  else match s with
       | [] => None
       | _ :: s' => str_find_from s' p (S pos)
       end.

Definition str_find (s p : list ascii) : option nat := str_find_from s p 0.

(** [s.find_first_of(chars)]: the lowest position of a character of [s]
    that is among [chars]. *)
Fixpoint str_find_first_of_from (s chars : list ascii) (pos : nat)
  : option nat :=
  match s with
  | [] => None
  | c :: s' => if decide (c ∈ chars) then Some pos
               else str_find_first_of_from s' chars (S pos)
  end.

Definition str_find_first_of (s chars : list ascii) : option nat :=
  str_find_first_of_from s chars 0.

(** [s.rfind(p)]: the highest position at which [p] occurs in [s]. *)
Fixpoint str_rfind_from (s p : list ascii) (pos : nat) : option nat :=
  match s with
  | [] => if starts_with p [] then Some pos else None
  | _ :: s' =>
    match str_rfind_from s' p (S pos) with
    | Some i => Some i
    | None => if starts_with p s then Some pos else None
    end
  end.

Definition str_rfind (s p : list ascii) : option nat := str_rfind_from s p 0.

(** Arithmetic on [size_t] wraps around at 2^64. *)
Definition size_t (z : Z) : Z := (z mod 2 ^ 64)%Z.

(** [s.substr(pos, count)]: the characters from [pos] on, [count] of them
    at most; [None] is the [std::out_of_range] thrown for a [pos] beyond
    the end. *)
Definition str_substr (s : list ascii) (pos : nat) (count : Z)
  : option (list ascii) :=
  if decide (pos <= length s)%nat
  then Some (take (Z.to_nat count) (drop pos s))
  else None.

Definition str_null : list ascii := ["n"; "u"; "l"; "l"]%char.
Definition str_open : list ascii := ["["]%char.
Definition str_close : list ascii := ["}"; "]"]%char.

Definition hasData (s : list ascii) : option (list ascii) :=
  let found_null := str_find s str_null in
  let b1 := str_find_first_of s str_open in
  let b2 := str_rfind s str_close in
  match found_null with
  | Some _ => Some []
  | None =>
    match b1, b2 with
    | Some b1, Some b2 =>
        str_substr s b1 (size_t (Z.of_nat b2 - Z.of_nat b1 + 2))
    | _, _ => Some []
    end
  end.

(** [p] occurs in [s]. *)
Definition occurs (p s : list ascii) : Prop :=
  exists u v, s = u ++ p ++ v.

(** ** The message handler (main.cpp, lines 74-175) *)

(** What the handler writes: a line on the console, a text frame on the
    socket, or one of the events of a telemetry tick. *)
Inductive io_event : Type :=
| StdoutLine (s : list ascii)
| SocketText (s : list ascii)
| TickEvent (e : event).

(** How a call of the handler ends: it returns, leaving a controller
    object; an exception leaves it; or the run is ended by an assertion or
    an access without defined behaviour. *)
Inductive ending : Type :=
| Returned (mpc : MPC)
| Threw
| Stopped (e : abort).

Definition double_quote : ascii := ascii_of_nat 34.

(** The text [42["manual",{}]]. *)
Definition manual_msg : list ascii :=
  String.list_ascii_of_string "42["%string
  ++ [double_quote] ++ String.list_ascii_of_string "manual"%string
  ++ [double_quote] ++ String.list_ascii_of_string ",{}]"%string.

Definition str_telemetry : list ascii :=
  String.list_ascii_of_string "telemetry"%string.

Definition NUL : ascii := ascii_of_nat 0.

(** [string(data)]: the characters stored at [data] up to the first NUL.
    [None]: there is no NUL among the bytes listed, and the read runs past
    them. *)
Fixpoint c_string (data : list ascii) : option (list ascii) :=
  match data with
  | [] => None
  | c :: rest =>
    if decide (c = NUL) then Some [] else cons c <$> c_string rest
  end.

(** [sdata.size() > 2 && sdata[0] == '4' && sdata[1] == '2'] *)
Definition is_event_frame (sdata : list ascii) : bool :=
  bool_decide (2 < length sdata)%nat
  && bool_decide (sdata !! 0%nat = Some "4"%char)
  && bool_decide (sdata !! 1%nat = Some "2"%char).

Section Dispatch.

Variable indeterminate : R.
Variable qr_solution : list (list R) -> list R -> nat -> R.
Variable Solve : MPC -> list R -> list R -> list R * MPC.

(** nlohmann::json is a library the program links against.
    [json_event s] is [json::parse(s)[0].get<string>()], and
    [json_telemetry s] the eight fields read from [json::parse(s)[1]] on
    lines 88-95; [None] is an exception thrown on the way. *)
Variable json_event : list ascii -> option (list ascii).
Variable json_telemetry : list ascii -> option Telemetry.

(** Lines 80-174: what the handler does with the text [sdata]. *)
Definition onMessage_sdata (mpc : MPC) (sdata : list ascii)
  : list io_event * ending :=
  let out := [StdoutLine sdata] in
  if is_event_frame sdata then
    match hasData sdata with
    | None => (out, Threw)
    | Some s =>
      if decide (s = []) then (out ++ [SocketText manual_msg], Returned mpc)
      else
        match json_event s with
        | None => (out, Threw)
        | Some event =>
          if decide (event = str_telemetry) then
            match json_telemetry s with
            | None => (out, Threw)
            | Some t =>
              let '(tr, r) :=
                onMessage_telemetry indeterminate qr_solution Solve mpc t in
              (out ++ (TickEvent <$> tr),
               match r with
               | Ok mpc' => Returned mpc'
               | Abort e => Stopped e
               end)
            end
          else (out, Returned mpc)
        end
    end
  else (out, Returned mpc).

(** The handler.  [data] lists the bytes found at the pointer it is given,
    the frame first and then whatever follows the frame in memory; [len] is
    the length of the frame.  Line 79,
    [string sdata = string(data).substr(0, length)], reads a C string and
    keeps [len] characters of it at most. *)
Definition onMessage (mpc : MPC) (data : list ascii) (len : nat)
  : list io_event * ending :=
  match c_string data with
  | None => ([], Stopped UndefinedBehaviour)
  | Some str =>
    match str_substr str 0 (Z.of_nat len) with
    | None => ([], Threw)
    | Some sdata => onMessage_sdata mpc sdata
    end
  end.

End Dispatch.

(** ** Frames as the simulator sends them *)

Definition quoted (s : string) : list ascii :=
  [double_quote] ++ String.list_ascii_of_string s ++ [double_quote].

(** The frame of manual driving, [42["telemetry",null]]. *)
Definition manual_frame : list ascii :=
  String.list_ascii_of_string "42["%string ++ quoted "telemetry"
  ++ String.list_ascii_of_string ",null]"%string.

(** The JSON text of [line_telemetry], between the opening bracket of the
    array and its closing ["}]"]. *)
Definition line_mid : list ascii :=
  quoted "telemetry" ++ String.list_ascii_of_string ",{"%string
  ++ quoted "ptsx" ++ String.list_ascii_of_string ":[0,1,2,3],"%string
  ++ quoted "ptsy" ++ String.list_ascii_of_string ":[0,1,2,3],"%string
  ++ quoted "x" ++ String.list_ascii_of_string ":0,"%string
  ++ quoted "y" ++ String.list_ascii_of_string ":0,"%string
  ++ quoted "psi" ++ String.list_ascii_of_string ":0,"%string
  ++ quoted "speed" ++ String.list_ascii_of_string ":1,"%string
  ++ quoted "steering_angle" ++ String.list_ascii_of_string ":1,"%string
  ++ quoted "throttle" ++ String.list_ascii_of_string ":0"%string.

Definition line_payload : list ascii := "["%char :: line_mid ++ str_close.

Definition line_frame : list ascii :=
  "4"%char :: "2"%char :: line_payload.

(** What the JSON library returns for [line_payload]; for any other text
    these two stand-ins throw. *)
Definition line_json_event (s : list ascii) : option (list ascii) :=
  if decide (s = line_payload) then Some str_telemetry else None.

Definition line_json_telemetry (s : list ascii) : option Telemetry :=
  if decide (s = line_payload) then Some line_telemetry else None.

(** * Verification *)

(** ** Loops *)

Lemma bind_Ok {A B : Type} (m : result A) (k : A -> result B) (b : B) :
  m ≫= k = Ok b -> exists a, m = Ok a /\ k a = Ok b.
Proof. destruct m as [a|e]; simpl; [eauto | discriminate]. Qed.

(** A loop whose body re-establishes an invariant (indexed by the loop
    counter) and never aborts under it runs to completion. *)
Lemma for_loop_total {St : Type} (P : nat -> St -> Prop)
  (body : nat -> St -> result St) (n i : nat) (s : St) :
  P i s ->
  (forall j s0, (i <= j < i + n)%nat -> P j s0 ->
                exists s1, body j s0 = Ok s1 /\ P (S j) s1) ->
  exists s', for_loop i n body s = Ok s' /\ P (i + n)%nat s'.
Proof.
  revert i s. induction n as [|n IH]; intros i s Hs Hbody; simpl.
  - rewrite Nat.add_0_r. eauto.
  - destruct (Hbody i s) as (s1 & -> & Hs1); [lia | assumption |]. simpl.
    replace (i + S n)%nat with (S i + n)%nat by lia.
    apply IH; [assumption |]. intros j s0 Hj. apply Hbody. lia.
Qed.

(** A loop stops at the first iteration whose body aborts. *)
Lemma for_loop_abort {St : Type} (P : nat -> St -> Prop)
  (body : nat -> St -> result St) (e : abort) (k n i : nat) (s : St) :
  P i s ->
  (forall j s0, (i <= j < k)%nat -> P j s0 ->
                exists s1, body j s0 = Ok s1 /\ P (S j) s1) ->
  (forall s0, P k s0 -> body k s0 = Abort e) ->
  (i <= k < i + n)%nat ->
  for_loop i n body s = Abort e.
Proof.
  revert i s. induction n as [|n IH]; intros i s Hs Hbody Hk Hi; [lia |].
  simpl. destruct (decide (i = k)) as [->|Hne].
  - rewrite (Hk s Hs). reflexivity.
  - destruct (Hbody i s) as (s1 & -> & Hs1); [lia | assumption |]. simpl.
    apply IH; [assumption | | assumption | lia].
    intros j s0 Hj. apply Hbody. lia.
Qed.

(** A loop that completes has completed each of its iterations. *)
Lemma for_loop_Ok_body {St : Type} (body : nat -> St -> result St)
  (n i : nat) (s s' : St) (j : nat) :
  for_loop i n body s = Ok s' ->
  (i <= j < i + n)%nat ->
  exists s0 s1, body j s0 = Ok s1.
Proof.
  revert i s. induction n as [|n IH]; intros i s; simpl.
  - intros _ Hj. lia.
  - intros H Hj. apply bind_Ok in H as (s1 & H1 & H2).
    destruct (decide (j = i)) as [->|Hne]; [eauto |].
    apply (IH (S i) s1); [assumption | lia].
Qed.

(** ** polyeval *)

Lemma vec_get_middle (pre cs : list R) (c : R) :
  vec_get (pre ++ c :: cs) (length pre) = Ok c.
Proof. unfold vec_get. rewrite list_lookup_middle by reflexivity. reflexivity. Qed.

Lemma polyeval_loop (pre cs : list R) (x acc : R) :
  for_loop (length pre) (length cs)
    (fun i result => c ← vec_get (pre ++ cs) i; Ok (result + c * x ^ i)) acc
  = Ok (acc + poly_sum cs (length pre) x).
Proof.
  revert pre acc. induction cs as [|c cs IH]; intros pre acc; simpl.
  - f_equal. lra.
  - rewrite vec_get_middle. simpl.
    replace (pre ++ c :: cs) with ((pre ++ [c]) ++ cs)
      by (rewrite <- app_assoc; reflexivity).
    replace (S (length pre)) with (length (pre ++ [c]))
      by (rewrite length_app; simpl; lia).
    rewrite IH. f_equal.
    replace (length (pre ++ [c])) with (S (length pre))
      by (rewrite length_app; simpl; lia).
    lra.
Qed.

Lemma polyeval_poly_sum (coeffs : VectorXd) (x : R) :
  polyeval coeffs x = Ok (poly_sum coeffs 0 x).
Proof.
  unfold polyeval. etransitivity; [exact (polyeval_loop [] coeffs x 0) |].
  simpl. f_equal. lra.
Qed.

(** ** Container accesses *)

Lemma std_get_Some (v : list R) (i : nat) (x : R) :
  v !! i = Some x -> std_get v i = Ok x.
Proof. unfold std_get. intros ->. reflexivity. Qed.

Lemma std_get_Ok (v : list R) (i : nat) (x : R) :
  std_get v i = Ok x -> v !! i = Some x.
Proof. unfold std_get. destruct (v !! i); [congruence | discriminate]. Qed.

Lemma vec_get_Some (v : VectorXd) (i : nat) (x : R) :
  v !! i = Some x -> vec_get v i = Ok x.
Proof. unfold vec_get. intros ->. reflexivity. Qed.

Lemma vec_set_lt (v : VectorXd) (i : nat) (x : R) :
  (i < length v)%nat -> vec_set v i x = Ok (<[i:=x]> v).
Proof. unfold vec_set. intros H. destruct (decide _); [reflexivity | lia]. Qed.

Lemma mat_get_Some (A : MatrixXd) (r c : nat) (row : list R) (x : R) :
  A !! r = Some row -> row !! c = Some x -> mat_get A r c = Ok x.
Proof. unfold mat_get. intros -> H. apply vec_get_Some, H. Qed.

Lemma mat_set_Some (A : MatrixXd) (r c : nat) (row : list R) (x : R) :
  A !! r = Some row -> (c < length row)%nat ->
  mat_set A r c x = Ok (<[r:=<[c:=x]> row]> A).
Proof. unfold mat_set. intros -> H. rewrite vec_set_lt by assumption. reflexivity. Qed.

(** Writing the first unwritten cell of a partly filled vector. *)
Lemma insert_fill {A : Type} (done : list A) (k : nat) (u x : A) :
  <[length done:=x]> (done ++ replicate (S k) u) = (done ++ [x]) ++ replicate k u.
Proof.
  rewrite insert_app_r_alt by lia. rewrite Nat.sub_diag. simpl.
  rewrite <- app_assoc. reflexivity.
Qed.

Section HandlerFacts.

Variable indeterminate : R.
Variable qr_solution : list (list R) -> list R -> nat -> R.
Variable Solve : MPC -> list R -> list R -> list R * MPC.

(** ** The waypoint transform *)

Lemma zip_with_take_S {A B C : Type} (f : A -> B -> C) (l : list A)
  (k : list B) (i : nat) (x : A) (y : B) :
  l !! i = Some x -> k !! i = Some y ->
  zip_with f (take (S i) l) (take (S i) k)
  = zip_with f (take i l) (take i k) ++ [f x y].
Proof.
  intros Hx Hy. rewrite (take_S_r l i x), (take_S_r k i y) by assumption.
  rewrite zip_with_app; [reflexivity |].
  apply lookup_lt_Some in Hx, Hy. rewrite !length_take. lia.
Qed.

(** With at least as many [ptsy] as [ptsx], the loop writes every cell of
    [ptsx_v] and the first [ptsx.size()] cells of [ptsy_v]. *)
Lemma transform_waypoints_total (ptsx ptsy : list R) (px py psi : R) :
  (length ptsx <= length ptsy)%nat ->
  transform_waypoints indeterminate ptsx ptsy px py psi
  = Ok (zip_with (vehicle_x px py psi) ptsx ptsy,
        zip_with (vehicle_y px py psi) ptsx ptsy
        ++ replicate (length ptsy - length ptsx) indeterminate).
Proof.
  intros Hle. unfold transform_waypoints.
  set (body := fun (i : nat) (s : list R * list R) => _).
  destruct (for_loop_total
    (fun i '(xv, yv) =>
       xv = zip_with (vehicle_x px py psi) (take i ptsx) (take i ptsy)
            ++ replicate (length ptsx - i) indeterminate /\
       yv = zip_with (vehicle_y px py psi) (take i ptsx) (take i ptsy)
            ++ replicate (length ptsy - i) indeterminate)
    body (length ptsx) 0
    (VectorXd_new indeterminate (length ptsx),
     VectorXd_new indeterminate (length ptsy)))
    as ([xv yv] & -> & Hx & Hy).
  - simpl. rewrite !Nat.sub_0_r. split; reflexivity.
  - intros j [xv yv] Hj [-> ->].
    destruct (lookup_lt_is_Some_2 ptsx j) as [x Hx]; [lia |].
    destruct (lookup_lt_is_Some_2 ptsy j) as [y Hy]; [lia |].
    assert (Hlen : forall f : R -> R -> R,
      length (zip_with f (take j ptsx) (take j ptsy)) = j).
    { intros f. rewrite length_zip_with, !length_take. lia. }
    subst body. cbv beta iota.
    rewrite (std_get_Some _ _ _ Hx), (std_get_Some _ _ _ Hy). simpl.
    rewrite vec_set_lt by (rewrite length_app, Hlen, length_replicate; lia).
    simpl.
    rewrite vec_set_lt by (rewrite length_app, Hlen, length_replicate; lia).
    simpl. eexists. split; [reflexivity |]. cbv beta iota.
    rewrite !(zip_with_take_S _ _ _ _ _ _ Hx Hy).
    replace (length ptsx - j)%nat with (S (length ptsx - S j)) by lia.
    replace (length ptsy - j)%nat with (S (length ptsy - S j)) by lia.
    split.
    + rewrite <- (Hlen (vehicle_x px py psi)) at 1. apply insert_fill.
    + rewrite <- (Hlen (vehicle_y px py psi)) at 1. apply insert_fill.
  - f_equal. simpl in Hx, Hy. subst xv yv.
    rewrite Nat.sub_diag, firstn_all. simpl. rewrite app_nil_r.
    rewrite !zip_with_take_r. reflexivity.
Qed.

(** With fewer [ptsy] than [ptsx], the loop reads [ptsy] past its end. *)
Lemma transform_waypoints_Ok_le (ptsx ptsy : list R) (px py psi : R)
  (r : list R * list R) :
  transform_waypoints indeterminate ptsx ptsy px py psi = Ok r ->
  (length ptsx <= length ptsy)%nat.
Proof.
  unfold transform_waypoints. intros H.
  destruct (decide (length ptsx <= length ptsy)%nat) as [|Hgt]; [assumption |].
  apply for_loop_Ok_body with (j := length ptsy) in H as ([xv yv] & s1 & H);
    [| lia].
  cbv beta iota in H. apply bind_Ok in H as (x & _ & H).
  apply bind_Ok in H as (y & Hy & _). apply std_get_Ok in Hy.
  apply lookup_lt_Some in Hy. lia.
Qed.

(** With fewer [ptsy] than [ptsx], the loop reads [ptsy] past its end at
    index [ptsy.size()]. *)
Lemma transform_waypoints_short (ptsx ptsy : list R) (px py psi : R) :
  (length ptsy < length ptsx)%nat ->
  transform_waypoints indeterminate ptsx ptsy px py psi
  = Abort UndefinedBehaviour.
Proof.
  intros Hlt. unfold transform_waypoints.
  apply (for_loop_abort
    (fun _ '(xv, yv) => length xv = length ptsx /\ length yv = length ptsy)
    _ _ (length ptsy)).
  - unfold VectorXd_new. rewrite !length_replicate. split; reflexivity.
  - intros j [xv yv] Hj [Hx Hy].
    destruct (lookup_lt_is_Some_2 ptsx j) as [x Hxj]; [lia |].
    destruct (lookup_lt_is_Some_2 ptsy j) as [y Hyj]; [lia |].
    rewrite (std_get_Some _ _ _ Hxj), (std_get_Some _ _ _ Hyj).
    cbn [mbind result_bind].
    rewrite vec_set_lt by lia. cbn [mbind result_bind].
    rewrite vec_set_lt by lia. cbn [mbind result_bind].
    eexists. split; [reflexivity |]. cbv beta iota.
    rewrite !length_insert. split; assumption.
  - intros [xv yv] _.
    destruct (lookup_lt_is_Some_2 ptsx (length ptsy)) as [x Hx]; [lia |].
    rewrite (std_get_Some _ _ _ Hx). cbn [mbind result_bind].
    unfold std_get. rewrite lookup_ge_None_2 by lia. reflexivity.
  - lia.
Qed.

(** ** polyfit *)

Lemma polyfit_abort (xvals yvals : list R) :
  length xvals <> length yvals \/ (length xvals < 4)%nat ->
  polyfit indeterminate qr_solution xvals yvals 3 = Abort AssertionFailed.
Proof.
  intros H. unfold polyfit.
  destruct (Z.eqb_spec (Z.of_nat (length xvals)) (Z.of_nat (length yvals)));
    simpl; [| reflexivity].
  destruct (Z.leb_spec 3 (Z.of_nat (length xvals) - 1)); simpl;
    [lia | reflexivity].
Qed.

(** A fit that returns has passed both assertions. *)
Lemma polyfit_asserts (xvals yvals c : list R) (order : Z) :
  polyfit indeterminate qr_solution xvals yvals order = Ok c ->
  length xvals = length yvals /\
  (1 <= order <= Z.of_nat (length xvals) - 1)%Z.
Proof.
  unfold polyfit.
  destruct (Z.eqb_spec (Z.of_nat (length xvals)) (Z.of_nat (length yvals)));
    simpl; [| discriminate].
  destruct (Z.leb_spec 1 order); simpl; [| discriminate].
  destruct (Z.leb_spec order (Z.of_nat (length xvals) - 1)); simpl;
    [| discriminate].
  intros _. lia.
Qed.

(** One step of the recurrence [A(j, i + 1) = A(j, i) * xvals(j)]. *)
Lemma polyfit_step (A : list (list R)) (xvals row : list R) (j i : nat)
  (a x : R) :
  A !! j = Some row -> row !! i = Some a -> (i + 1 < length row)%nat ->
  xvals !! j = Some x ->
  (a ← mat_get A j i; xj ← vec_get xvals j; mat_set A j (i + 1) (a * xj))
  = Ok (<[j:=<[(i + 1)%nat:=a * x]> row]> A).
Proof.
  intros HA Hrow Hlt Hx.
  rewrite (mat_get_Some _ _ _ _ _ HA Hrow). simpl.
  rewrite (vec_get_Some _ _ _ Hx). simpl.
  apply mat_set_Some; assumption.
Qed.

(** Once both assertions hold, the fit is the solution Eigen returns for
    the Vandermonde matrix of [xvals] and the right-hand side [yvals]. *)
Lemma polyfit_total (xvals yvals : list R) :
  length xvals = length yvals -> (4 <= length xvals)%nat ->
  polyfit indeterminate qr_solution xvals yvals 3
  = Ok (householderQr_solve qr_solution 4 (vandermonde_row <$> xvals) yvals).
Proof.
  intros Hlen Hfour. unfold polyfit.
  destruct (Z.eqb_spec (Z.of_nat (length xvals)) (Z.of_nat (length yvals)));
    [| lia].
  destruct (Z.leb_spec 3 (Z.of_nat (length xvals) - 1)); [| lia].
  cbv beta iota zeta. simpl negb. cbv iota.
  change (Z.to_nat (3 + 1)) with 4%nat. change (Z.to_nat 3) with 3%nat.
  set (n := length xvals).
  set (row0 := [1; indeterminate; indeterminate; indeterminate]).
  destruct (for_loop_total
    (fun i A => A = replicate i row0
                    ++ replicate (n - i) (replicate 4 indeterminate))
    (fun i A => mat_set A i 0 1) n 0 (MatrixXd_new indeterminate n 4))
    as (A1 & -> & HA1).
  { simpl. rewrite Nat.sub_0_r. reflexivity. }
  { intros j A Hj ->. eexists. split.
    - apply mat_set_Some with (row := replicate 4 indeterminate).
      + rewrite lookup_app_r by (rewrite length_replicate; lia).
        apply lookup_replicate_2. rewrite length_replicate. lia.
      + simpl. lia.
    - replace (n - j)%nat with (S (n - S j)) by lia.
      rewrite <- (length_replicate j row0) at 1.
      rewrite insert_fill, <- replicate_S_end. reflexivity. }
  simpl in HA1. rewrite Nat.sub_diag, app_nil_r in HA1. subst A1.
  cbn [mbind result_bind].
  destruct (for_loop_total
    (fun j A => A = (vandermonde_row <$> take j xvals)
                    ++ replicate (n - j) row0)
    (fun j A => for_loop 0 3 (fun i A =>
       a ← mat_get A j i; xj ← vec_get xvals j; mat_set A j (i + 1) (a * xj))
       A) n 0 (replicate n row0))
    as (A2 & -> & HA2).
  { simpl. rewrite Nat.sub_0_r. reflexivity. }
  { intros j A Hj ->.
    destruct (lookup_lt_is_Some_2 xvals j) as [x Hx]; [fold n; lia |].
    assert (Hdone : length (vandermonde_row <$> take j xvals) = j).
    { rewrite length_fmap, length_take. fold n. lia. }
    assert (HA : ((vandermonde_row <$> take j xvals)
                  ++ replicate (n - j) row0) !! j = Some row0).
    { rewrite lookup_app_r by lia. rewrite Hdone, Nat.sub_diag.
      apply lookup_replicate_2. lia. }
    assert (Hj' : (j < length ((vandermonde_row <$> take j xvals)
                               ++ replicate (n - j) row0))%nat).
    { apply lookup_lt_Some in HA. exact HA. }
    eexists. split.
    - simpl.
      rewrite (polyfit_step _ _ row0 j 0 1 x HA eq_refl) by (simpl; lia || exact Hx).
      cbn [mbind result_bind].
      erewrite (polyfit_step _ _ _ j 1 (1 * x) x);
        [| apply list_lookup_insert_eq; exact Hj' | reflexivity
         | simpl; lia | exact Hx].
      cbn [mbind result_bind].
      erewrite (polyfit_step _ _ _ j 2 (1 * x * x) x);
        [| apply list_lookup_insert_eq; rewrite length_insert; exact Hj'
         | reflexivity | simpl; lia | exact Hx].
      cbn [mbind result_bind]. reflexivity.
    - rewrite !list_insert_insert_eq.
      replace (n - j)%nat with (S (n - S j)) by lia.
      rewrite <- Hdone at 1. rewrite insert_fill.
      rewrite (take_S_r _ _ _ Hx), fmap_app. reflexivity. }
  simpl in HA2. rewrite Nat.sub_diag, app_nil_r in HA2. subst A2.
  unfold n. rewrite firstn_all. reflexivity.
Qed.

(** ** The state vector *)

Lemma projected_state_cubic (c0 c1 c2 c3 v delta a : R) :
  projected_state [c0; c1; c2; c3] v delta a
  = Ok [0 + v * cos 0 * 0.1;
        0 + v * sin 0 * 0.1;
        0 - v / Lf * delta * 0.1;
        v + a * 0.1;
        poly_sum [c0; c1; c2; c3] 0 0 - 0 + v * sin 0 * 0.1;
        0 - v / Lf * delta * 0.1
        - atan (c1 + 2 * c2 * (0 + v * cos 0 * 0.1)
                + 3 * c3 * (0 + v * cos 0 * 0.1) * (0 + v * cos 0 * 0.1))
        - v / Lf * delta * 0.1].
Proof. unfold projected_state. rewrite polyeval_poly_sum. reflexivity. Qed.

Lemma householderQr_solve_4 (A : list (list R)) (b : list R) :
  householderQr_solve qr_solution 4 A b
  = [qr_solution A b 0%nat; qr_solution A b 1%nat;
     qr_solution A b 2%nat; qr_solution A b 3%nat].
Proof. reflexivity. Qed.

(** ** Everything before the call of the solver *)

Lemma prepare_solve_Ok (t : Telemetry) (call : SolveCall) :
  prepare_solve indeterminate qr_solution t = Ok call ->
  length (j_ptsx t) = length (j_ptsy t) /\ (4 <= length (j_ptsx t))%nat.
Proof.
  unfold prepare_solve. intros H.
  apply bind_Ok in H as ([xv yv] & Htr & H).
  pose proof (transform_waypoints_Ok_le _ _ _ _ _ _ Htr) as Hle.
  rewrite transform_waypoints_total in Htr by assumption.
  injection Htr as <- <-.
  apply bind_Ok in H as (c & Hfit & _).
  apply polyfit_asserts in Hfit as [Hlen Hfour].
  rewrite length_app, !length_zip_with, length_replicate in Hlen.
  rewrite length_zip_with in Hfour. lia.
Qed.

(** A message whose transform completes and whose waypoints are too few,
    or not matched, stops at an assertion of the fit. *)
Lemma prepare_solve_assert (t : Telemetry) :
  (length (j_ptsx t) <= length (j_ptsy t))%nat ->
  length (j_ptsx t) <> length (j_ptsy t) \/ (length (j_ptsx t) < 4)%nat ->
  prepare_solve indeterminate qr_solution t = Abort AssertionFailed.
Proof.
  intros Hle H. unfold prepare_solve.
  rewrite transform_waypoints_total by assumption. cbn [mbind result_bind].
  rewrite polyfit_abort; [reflexivity |].
  rewrite length_app, !length_zip_with, length_replicate. lia.
Qed.

Lemma prepare_solve_short (t : Telemetry) :
  (length (j_ptsy t) < length (j_ptsx t))%nat ->
  prepare_solve indeterminate qr_solution t = Abort UndefinedBehaviour.
Proof.
  intros Hlt. unfold prepare_solve.
  rewrite transform_waypoints_short by assumption. reflexivity.
Qed.

Lemma prepare_solve_total (t : Telemetry) :
  length (j_ptsx t) = length (j_ptsy t) -> (4 <= length (j_ptsx t))%nat ->
  exists st,
    projected_state (fitted_coeffs qr_solution t)
      (j_speed t) (j_steering_angle t) (j_throttle t) = Ok st /\
    prepare_solve indeterminate qr_solution t
    = Ok {| ptsx_v := waypoints_x t;
            ptsy_v := waypoints_y t;
            coeffs := fitted_coeffs qr_solution t;
            state := st |}.
Proof.
  intros Hlen Hfour. unfold prepare_solve.
  rewrite transform_waypoints_total by lia.
  rewrite Hlen, Nat.sub_diag. simpl replicate. rewrite app_nil_r.
  cbn [mbind result_bind]. fold (waypoints_x t) (waypoints_y t).
  rewrite polyfit_total
    by (unfold waypoints_x, waypoints_y; rewrite !length_zip_with; lia).
  cbn [mbind result_bind]. fold (fitted_coeffs qr_solution t).
  unfold fitted_coeffs at 1 3. rewrite householderQr_solve_4.
  rewrite projected_state_cubic. cbn [mbind result_bind].
  eexists. split; reflexivity.
Qed.

(** ** The reply *)

Lemma steer_message_Ok (mpc : MPC) (vars xv yv : list R) (msg : SteerMsg) :
  steer_message mpc vars xv yv = Ok msg ->
  exists delta0 a0,
    vars !! 6%nat = Some delta0 /\ vars !! 7%nat = Some a0 /\
    steering_angle msg = - delta0 / deg2rad 25 /\
    throttle msg = a0 /\
    mpc_x msg = next_path_xs mpc /\ mpc_y msg = next_path_ys mpc.
Proof.
  unfold steer_message. intros H.
  apply bind_Ok in H as (delta0 & Hd & H). apply std_get_Ok in Hd.
  apply bind_Ok in H as (a0 & Ha & H). apply std_get_Ok in Ha.
  apply bind_Ok in H as ([nx ny] & _ & H). injection H as <-.
  exists delta0, a0. simpl. repeat split; assumption.
Qed.

Lemma steer_message_total (mpc : MPC) (vars xv yv : list R) (delta0 a0 : R) :
  vars !! 6%nat = Some delta0 -> vars !! 7%nat = Some a0 ->
  length xv = length yv ->
  steer_message mpc vars xv yv
  = Ok {| steering_angle := - delta0 / deg2rad 25;
          throttle := a0;
          mpc_x := next_path_xs mpc;
          mpc_y := next_path_ys mpc;
          next_x := xv;
          next_y := yv |}.
Proof.
  intros Hd Ha Hlen. unfold steer_message.
  rewrite (std_get_Some _ _ _ Hd), (std_get_Some _ _ _ Ha).
  cbn [mbind result_bind].
  set (body := fun (i : nat) (s : list R * list R) => _).
  destruct (for_loop_total
    (fun i '(nx, ny) => nx = take i xv /\ ny = take i yv)
    body (length xv) 0 ([], [])) as ([nx ny] & -> & Hx & Hy).
  - split; reflexivity.
  - intros j [nx ny] Hj [-> ->].
    destruct (lookup_lt_is_Some_2 xv j) as [x Hx]; [lia |].
    destruct (lookup_lt_is_Some_2 yv j) as [y Hy]; [lia |].
    subst body. cbv beta iota.
    rewrite (vec_get_Some _ _ _ Hx), (vec_get_Some _ _ _ Hy).
    cbn [mbind result_bind]. eexists. split; [reflexivity |].
    cbv beta iota. rewrite (take_S_r _ _ _ Hx), (take_S_r _ _ _ Hy).
    split; reflexivity.
  - simpl in Hx, Hy. rewrite firstn_all in Hx. rewrite Hlen, firstn_all in Hy.
    subst nx ny. reflexivity.
Qed.

(** A telemetry event that ends normally has called the solver once, on
    the prepared state and coefficients, and has emitted three events. *)
Lemma onMessage_telemetry_Ok (mpc mpc' : MPC) (t : Telemetry)
  (tr : list event) :
  onMessage_telemetry indeterminate qr_solution Solve mpc t = (tr, Ok mpc') ->
  exists call vars msg,
    prepare_solve indeterminate qr_solution t = Ok call /\
    Solve mpc (state call) (coeffs call) = (vars, mpc') /\
    steer_message mpc' vars (ptsx_v call) (ptsy_v call) = Ok msg /\
    tr = [Cout msg; SleepFor 100; WsSend msg].
Proof.
  unfold onMessage_telemetry.
  destruct (prepare_solve indeterminate qr_solution t) as [call|e];
    [| discriminate].
  destruct (Solve mpc (state call) (coeffs call)) as [vars mpc1] eqn:HS.
  destruct (steer_message mpc1 vars (ptsx_v call) (ptsy_v call)) as [msg|e]
    eqn:Hmsg; [| discriminate].
  intros [= <- <-]. exists call, vars, msg. auto.
Qed.

(** A telemetry event with at least four matched waypoints is answered as
    soon as the solution has the two entries the handler reads. *)
Lemma onMessage_telemetry_total (mpc mpc' : MPC) (t : Telemetry)
  (call : SolveCall) (vars : list R) (delta0 a0 : R) :
  prepare_solve indeterminate qr_solution t = Ok call ->
  Solve mpc (state call) (coeffs call) = (vars, mpc') ->
  vars !! 6%nat = Some delta0 -> vars !! 7%nat = Some a0 ->
  let msg := {| steering_angle := - delta0 / deg2rad 25;
                throttle := a0;
                mpc_x := next_path_xs mpc';
                mpc_y := next_path_ys mpc';
                next_x := waypoints_x t;
                next_y := waypoints_y t |} in
  onMessage_telemetry indeterminate qr_solution Solve mpc t
  = ([Cout msg; SleepFor 100; WsSend msg], Ok mpc').
Proof.
  intros Hp HS Hd Ha. unfold onMessage_telemetry. rewrite Hp, HS.
  destruct (prepare_solve_Ok _ _ Hp) as [Hlen Hfour].
  destruct (prepare_solve_total t Hlen Hfour) as (st & _ & Hp').
  rewrite Hp' in Hp. injection Hp as <-. simpl.
  rewrite (steer_message_total _ _ _ _ _ _ Hd Ha); [reflexivity |].
  unfold waypoints_x, waypoints_y. rewrite !length_zip_with. reflexivity.
Qed.

(** A telemetry event whose run ends early has emitted nothing. *)
Lemma onMessage_telemetry_Abort (mpc : MPC) (t : Telemetry)
  (tr : list event) (e : abort) :
  onMessage_telemetry indeterminate qr_solution Solve mpc t = (tr, Abort e) ->
  tr = [].
Proof.
  unfold onMessage_telemetry.
  destruct (prepare_solve indeterminate qr_solution t) as [call|e'];
    [| congruence].
  destruct (Solve mpc (state call) (coeffs call)) as [vars mpc1].
  destruct (steer_message mpc1 vars (ptsx_v call) (ptsy_v call));
    [discriminate | congruence].
Qed.

(** ** The state and the coefficients handed to the solver *)

(** The prepared call, spelled out: the coefficients are the four entries
    Eigen returns, the state the six values of lines 123-128. *)
Lemma prepare_solve_inv (t : Telemetry) (call : SolveCall) :
  prepare_solve indeterminate qr_solution t = Ok call ->
  exists c0 c1 c2 c3,
    fitted_coeffs qr_solution t = [c0; c1; c2; c3] /\
    projected_state [c0; c1; c2; c3]
      (j_speed t) (j_steering_angle t) (j_throttle t) = Ok (state call) /\
    call = {| ptsx_v := waypoints_x t;
              ptsy_v := waypoints_y t;
              coeffs := [c0; c1; c2; c3];
              state := state call |}.
Proof.
  intros H. destruct (prepare_solve_Ok _ _ H) as [Hlen Hfour].
  destruct (prepare_solve_total t Hlen Hfour) as (st & Hst & Hp).
  rewrite Hp in H. injection H as <-. simpl.
  unfold fitted_coeffs in *. rewrite householderQr_solve_4 in *.
  eauto 10.
Qed.

(** C2: the first four components of the state handed to [MPC::Solve] are
    one step of the kinematic model of the specification, with dt = 0.1 and
    Lf = 2.67, from the vehicle-frame state (0, 0, 0, v) under the reported
    actuation (delta, a). *)
Theorem C2_projection_is_one_kinematic_step (t : Telemetry)
  (call : SolveCall) :
  prepare_solve indeterminate qr_solution t = Ok call ->
  let s' := KinematicModel 0.1 2.67
              (cubic (coeffs call)) (cubic' (coeffs call))
              (vehicle_frame_state (coeffs call) (j_speed t))
              (j_steering_angle t) (j_throttle t) in
  take 4 (state call) = [vs_x s'; vs_y s'; vs_psi s'; vs_v s'].
Proof.
  intros H. destruct (prepare_solve_inv _ _ H) as (c0 & c1 & c2 & c3 & _ & Hst & ->).
  rewrite projected_state_cubic in Hst. injection Hst as <-.
  reflexivity.
Qed.

(** C9: the latency projection leaves the cross-track error unchanged: the
    component handed to [MPC::Solve] equals the cross-track error before
    the projection, which is the constant coefficient [coeffs[0]] of the
    fit, for every telemetry event that reaches the solver. *)
Theorem C9_projection_keeps_cte (t : Telemetry) (call : SolveCall) :
  prepare_solve indeterminate qr_solution t = Ok call ->
  exists c0 late_cte,
    coeffs call !! 0%nat = Some c0 /\
    state call !! 4%nat = Some late_cte /\
    late_cte = vs_cte (vehicle_frame_state (coeffs call) (j_speed t)) /\
    late_cte = c0.
Proof.
  intros H. destruct (prepare_solve_inv _ _ H) as (c0 & c1 & c2 & c3 & _ & Hst & ->).
  rewrite projected_state_cubic in Hst. injection Hst as <-.
  eexists _, _. split; [reflexivity |]. split; [reflexivity |].
  unfold vehicle_frame_state, cubic. simpl. rewrite sin_0. split; lra.
Qed.

(** C7: the state handed to [MPC::Solve] has exactly six components, in the
    order (x, y, psi, v, cte, epsi); position and heading are measured from
    the origin of the vehicle's own frame, so they do not depend on the
    reported global pose; and the vector is a function of this event's
    telemetry alone, whatever the controller object holds. *)
Theorem C7_state_has_six_components (t : Telemetry) (call : SolveCall) :
  prepare_solve indeterminate qr_solution t = Ok call ->
  length (state call) = 6%nat /\
  (exists x y psi v cte epsi,
     state call = [x; y; psi; v; cte; epsi] /\
     x = j_speed t * 0.1 /\
     y = 0 /\
     psi = - (j_speed t / Lf) * j_steering_angle t * 0.1 /\
     v = j_speed t + j_throttle t * 0.1 /\
     cte = cubic (coeffs call) 0 /\
     epsi = psi - atan (cubic' (coeffs call) x)
            - j_speed t / Lf * j_steering_angle t * 0.1) /\
  (forall mpc : MPC,
     onMessage_telemetry indeterminate qr_solution Solve mpc t =
     let '(vars, mpc') := Solve mpc (state call) (coeffs call) in
     match steer_message mpc' vars (ptsx_v call) (ptsy_v call) with
     | Abort e => ([], Abort e)
     | Ok msg => ([Cout msg; SleepFor 100; WsSend msg], Ok mpc')
     end).
Proof.
  intros H. split; [| split].
  - destruct (prepare_solve_inv _ _ H) as (c0 & c1 & c2 & c3 & _ & Hst & _).
    rewrite projected_state_cubic in Hst. injection Hst as <-. reflexivity.
  - destruct (prepare_solve_inv _ _ H) as (c0 & c1 & c2 & c3 & _ & Hst & ->).
    rewrite projected_state_cubic in Hst. injection Hst as <-.
    eexists _, _, _, _, _, _. split; [reflexivity |].
    unfold cubic, cubic'. simpl. rewrite sin_0, cos_0.
    repeat split; try lra.
    f_equal. f_equal. f_equal. lra.
  - intros mpc. unfold onMessage_telemetry. rewrite H. reflexivity.
Qed.

(** C6: the coefficient vector handed to [MPC::Solve] has exactly four
    entries, the degree-3 fit of this event's transformed waypoints, and
    [polyeval] reads coefficients lowest degree first: it returns the sum of
    [coeffs[i] * x ^ i]. *)
Theorem C6_four_coefficients_lowest_degree_first (t : Telemetry)
  (call : SolveCall) :
  prepare_solve indeterminate qr_solution t = Ok call ->
  length (coeffs call) = 4%nat /\
  ptsx_v call = waypoints_x t /\
  ptsy_v call = waypoints_y t /\
  coeffs call = householderQr_solve qr_solution 4
                  (vandermonde_row <$> ptsx_v call) (ptsy_v call) /\
  (forall (c : list R) (x : R), polyeval c x = Ok (poly_sum c 0 x)) /\
  (exists c0 c1 c2 c3,
     coeffs call = [c0; c1; c2; c3] /\
     forall x, exists r,
       polyeval (coeffs call) x = Ok r /\
       r = c0 + c1 * x + c2 * x ^ 2 + c3 * x ^ 3).
Proof.
  intros H.
  destruct (prepare_solve_inv _ _ H) as (c0 & c1 & c2 & c3 & Hfit & _ & ->).
  simpl. repeat split; try reflexivity.
  - exact (eq_sym Hfit).
  - apply polyeval_poly_sum.
  - exists c0, c1, c2, c3. split; [reflexivity |]. intros x.
    eexists. split; [apply polyeval_poly_sum |]. simpl. lra.
Qed.

(** C10: [polyfit] returns only for vectors of equal length and an order
    between 1 and [xvals.size() - 1].  Hence a telemetry event either
    carries at least four waypoints, as many [ptsy] as [ptsx], and reaches
    [MPC::Solve]; or it carries fewer than four, or unmatched ones, and the
    run ends before the solver is called, with nothing emitted: at an
    assertion of the fit whenever the waypoint loop completes, and in that
    loop, reading [ptsy] out of range, when [ptsy] is the shorter of the
    two. *)
Theorem C10_solver_needs_four_waypoints (mpc : MPC) (t : Telemetry) :
  (forall (xvals yvals : list R) (order : Z) (c : list R),
     polyfit indeterminate qr_solution xvals yvals order = Ok c ->
     length xvals = length yvals /\
     (1 <= order <= Z.of_nat (length xvals) - 1)%Z) /\
  (((4 <= length (j_ptsx t))%nat /\
   length (j_ptsx t) = length (j_ptsy t) /\
   exists call, prepare_solve indeterminate qr_solution t = Ok call /\
     (4 <= length (ptsx_v call))%nat /\
     length (ptsx_v call) = length (ptsy_v call))
  \/
  (((length (j_ptsx t) < 4)%nat \/ length (j_ptsx t) <> length (j_ptsy t)) /\
   exists e,
     prepare_solve indeterminate qr_solution t = Abort e /\
     onMessage_telemetry indeterminate qr_solution Solve mpc t
       = ([], Abort e) /\
     e = (if decide (length (j_ptsx t) <= length (j_ptsy t))%nat
          then AssertionFailed else UndefinedBehaviour))).
Proof.
  split; [intros xvals yvals order c; apply polyfit_asserts |].
  destruct (decide (length (j_ptsx t) <= length (j_ptsy t))%nat) as [Hle|Hgt].
  - destruct (decide (length (j_ptsx t) = length (j_ptsy t)
                      /\ (4 <= length (j_ptsx t))%nat)) as [[Hlen Hfour]|Hbad].
    + left. split; [assumption |]. split; [assumption |].
      destruct (prepare_solve_total t Hlen Hfour) as (st & _ & Hp).
      eexists. split; [exact Hp |]. simpl.
      unfold waypoints_x, waypoints_y. rewrite !length_zip_with. lia.
    + right. split; [lia |]. exists AssertionFailed.
      assert (Hp : prepare_solve indeterminate qr_solution t
                   = Abort AssertionFailed)
        by (apply prepare_solve_assert; lia).
      unfold onMessage_telemetry. rewrite Hp. auto.
  - right. split; [lia |]. exists UndefinedBehaviour.
    assert (Hp : prepare_solve indeterminate qr_solution t
                 = Abort UndefinedBehaviour)
      by (apply prepare_solve_short; lia).
    unfold onMessage_telemetry. rewrite Hp. auto.
Qed.

(** ** The command *)

Lemma deg2rad_25_pos : 0 < deg2rad 25.
Proof. unfold deg2rad. pose proof PI_RGT_0. lra. Qed.

(** Dividing a steering angle within 25 degrees by 25 degrees, negated. *)
Lemma steer_normalised (delta0 : R) :
  - deg2rad 25 <= delta0 <= deg2rad 25 ->
  -1 <= - delta0 / deg2rad 25 <= 1.
Proof.
  intros [Hlo Hhi]. pose proof deg2rad_25_pos as Hpos.
  pose proof (Rinv_0_lt_compat _ Hpos) as Hinv.
  assert (Hone : deg2rad 25 * / deg2rad 25 = 1) by (apply Rinv_r; lra).
  unfold Rdiv. split; nra.
Qed.

(** C1: when the solver keeps to the box constraints of the specification,
    every message the handler sends carries a steering value and a throttle
    value in [-1, 1], whatever the telemetry. *)
Theorem C1_commands_within_unit_interval (mpc : MPC) (t : Telemetry)
  (msg : SteerMsg) :
  Solve_respects_bounds Solve ->
  WsSend msg ∈ (onMessage_telemetry indeterminate qr_solution Solve mpc t).1 ->
  -1 <= steering_angle msg <= 1 /\ -1 <= throttle msg <= 1.
Proof.
  intros Hbox Hin.
  destruct (onMessage_telemetry indeterminate qr_solution Solve mpc t)
    as [tr [mpc'|e]] eqn:Htick; simpl in Hin.
  - apply onMessage_telemetry_Ok in Htick
      as (call & vars & msg' & Hp & HS & Hmsg & ->).
    assert (msg = msg') as <-.
    { rewrite !elem_of_cons in Hin.
      destruct Hin as [Hin | [Hin | [Hin | Hin]]];
        [discriminate | discriminate | congruence |].
      apply elem_of_nil in Hin. contradiction. }
    apply steer_message_Ok in Hmsg
      as (delta0 & a0 & Hd & Ha & -> & -> & _).
    destruct (prepare_solve_inv _ _ Hp) as (c0 & c1 & c2 & c3 & _ & Hst & Hcall).
    rewrite projected_state_cubic in Hst. injection Hst as Hst.
    destruct (Hbox mpc (state call) (coeffs call)) as [Hsteer Hthrottle].
    + rewrite <- Hst. reflexivity.
    + rewrite Hcall. reflexivity.
    + rewrite HS in Hsteer, Hthrottle. simpl in Hsteer, Hthrottle.
      split; [apply steer_normalised, Hsteer, Hd | apply Hthrottle, Ha].
  - apply onMessage_telemetry_Abort in Htick as ->.
    apply elem_of_nil in Hin. contradiction.
Qed.

(** C5: the command is read off the solution: the steering value sent is
    the entry at position 6 divided by 25 degrees (in radians) and negated,
    so an angle within 25 degrees either way lands in [-1, 1] with its sign
    flipped; the throttle sent is the entry at position 7 as it is; and the
    solver has been called once, the controller object left being the one
    that call returned. *)
Theorem C5_command_is_read_from_solution (mpc mpc' : MPC) (t : Telemetry)
  (tr : list event) :
  onMessage_telemetry indeterminate qr_solution Solve mpc t = (tr, Ok mpc') ->
  exists call vars delta0 a0 msg,
    prepare_solve indeterminate qr_solution t = Ok call /\
    Solve mpc (state call) (coeffs call) = (vars, mpc') /\
    vars !! 6%nat = Some delta0 /\
    vars !! 7%nat = Some a0 /\
    tr = [Cout msg; SleepFor 100; WsSend msg] /\
    steering_angle msg = - delta0 / (25 * PI / 180) /\
    throttle msg = a0 /\
    (- (25 * PI / 180) <= delta0 <= 25 * PI / 180 ->
     -1 <= steering_angle msg <= 1) /\
    (0 < delta0 -> steering_angle msg < 0) /\
    (delta0 < 0 -> 0 < steering_angle msg).
Proof.
  intros Htick.
  apply onMessage_telemetry_Ok in Htick
    as (call & vars & msg & Hp & HS & Hmsg & ->).
  apply steer_message_Ok in Hmsg as (delta0 & a0 & Hd & Ha & Hsteer & Hth & _).
  exists call, vars, delta0, a0, msg.
  pose proof deg2rad_25_pos as Hpos. fold (deg2rad 25). rewrite Hsteer.
  do 7 (split; [assumption || reflexivity |]).
  split; [| split].
  - apply steer_normalised.
  - intros Hd0. apply Rdiv_neg_pos; lra.
  - intros Hd0. apply Rdiv_pos_pos; lra.
Qed.

(** C8: on a telemetry event that is answered, the handler prints the
    message, sleeps for 100 milliseconds and only then sends it; the state
    the command was computed from had already been projected over a
    latency of 0.1 seconds, so the sleep comes on top of that projection. *)
Theorem C8_sleep_between_compute_and_send (mpc mpc' : MPC) (t : Telemetry)
  (tr : list event) :
  onMessage_telemetry indeterminate qr_solution Solve mpc t = (tr, Ok mpc') ->
  exists call vars msg late_x late_v,
    prepare_solve indeterminate qr_solution t = Ok call /\
    state call !! 0%nat = Some late_x /\
    late_x = j_speed t * 0.1 /\
    state call !! 3%nat = Some late_v /\
    late_v = j_speed t + j_throttle t * 0.1 /\
    Solve mpc (state call) (coeffs call) = (vars, mpc') /\
    steer_message mpc' vars (ptsx_v call) (ptsy_v call) = Ok msg /\
    tr = [Cout msg; SleepFor 100; WsSend msg].
Proof.
  intros Htick.
  apply onMessage_telemetry_Ok in Htick
    as (call & vars & msg & Hp & HS & Hmsg & ->).
  destruct (prepare_solve_inv _ _ Hp) as (c0 & c1 & c2 & c3 & _ & Hst & _).
  rewrite projected_state_cubic in Hst. injection Hst as Hst.
  exists call, vars, msg. rewrite <- Hst. eexists _, _.
  split; [assumption |]. split; [reflexivity |].
  split; [rewrite cos_0; lra |]. split; [reflexivity |].
  split; [reflexivity |]. rewrite Hst. auto.
Qed.

(** ** The tick on the straight line *)

(** The only cubic through the four waypoints of [line_telemetry] is
    [y = x]. *)
Lemma line_fit_unique (c0 c1 c2 c3 : R) :
  mat_vec (vandermonde_row <$> waypoints_x line_telemetry) [c0; c1; c2; c3]
  = waypoints_y line_telemetry ->
  c0 = 0 /\ c1 = 1 /\ c2 = 0 /\ c3 = 0.
Proof.
  unfold waypoints_x, waypoints_y, vehicle_x, vehicle_y, mat_vec, row_dot.
  simpl. rewrite cos_0, sin_0. intros H.
  injection H as H0 H1 H2 H3. repeat split; lra.
Qed.

Lemma line_telemetry_call :
  solves_exactly qr_solution line_telemetry ->
  exists st,
    projected_state [0; 1; 0; 0] 1 1 0 = Ok st /\
    prepare_solve indeterminate qr_solution line_telemetry
    = Ok {| ptsx_v := waypoints_x line_telemetry;
            ptsy_v := waypoints_y line_telemetry;
            coeffs := [0; 1; 0; 0];
            state := st |}.
Proof.
  intros Hexact.
  destruct (prepare_solve_total line_telemetry) as (st & Hst & Hp);
    [reflexivity | simpl; lia |].
  unfold solves_exactly in Hexact. rewrite Hp. clear Hp.
  unfold fitted_coeffs in *. rewrite householderQr_solve_4 in *.
  apply line_fit_unique in Hexact as (H0 & H1 & H2 & H3).
  rewrite H0, H1, H2, H3 in Hst |- *.
  exists st. split; [exact Hst | reflexivity].
Qed.

(** C3: on the straight line [y = x], taken at speed 1, the cross-track
    error handed to [MPC::Solve] is 0, the constant coefficient of the fit,
    whereas f(x) - y + v * sin(epsi) * dt with epsi = -atan(f'(0)) is
    -(1 / sqrt 2) * 0.1: line 127 takes the sine of the vehicle-frame
    heading, which is 0, where the model has the heading error. *)
Theorem C3_cte_projection_drops_heading_error :
  solves_exactly qr_solution line_telemetry ->
  exists call late_cte,
    prepare_solve indeterminate qr_solution line_telemetry = Ok call /\
    state call !! 4%nat = Some late_cte /\
    late_cte = 0 /\
    let s' := KinematicModel 0.1 2.67
                (cubic (coeffs call)) (cubic' (coeffs call))
                (vehicle_frame_state (coeffs call) (j_speed line_telemetry))
                (j_steering_angle line_telemetry)
                (j_throttle line_telemetry) in
    vs_cte s' = - (1 / sqrt 2) * 0.1 /\
    late_cte <> vs_cte s'.
Proof.
  intros Hexact.
  destruct (line_telemetry_call Hexact) as (st & Hst & Hp).
  rewrite projected_state_cubic in Hst. injection Hst as <-.
  eexists _, (poly_sum [0; 1; 0; 0] 0 0 - 0 + 1 * sin 0 * 0.1).
  split; [exact Hp |]. split; [reflexivity |].
  assert (Hcode : poly_sum [0; 1; 0; 0] 0 0 - 0 + 1 * sin 0 * 0.1 = 0)
    by (simpl; rewrite sin_0; lra).
  assert (Hmodel :
    vs_cte (KinematicModel 0.1 2.67 (cubic [0; 1; 0; 0]) (cubic' [0; 1; 0; 0])
              (vehicle_frame_state [0; 1; 0; 0] 1) 1 0)
    = - (1 / sqrt 2) * 0.1).
  { unfold KinematicModel, vehicle_frame_state, cubic, cubic'. simpl.
    replace (1 + 2 * 0 * 0 + 3 * 0 * (0 * (0 * 1))) with 1 by lra.
    rewrite atan_1. replace (0 - PI / 4) with (- (PI / 4)) by lra.
    rewrite sin_neg, sin_PI4. lra. }
  split; [exact Hcode |]. cbv zeta. split; [exact Hmodel |].
  rewrite Hcode. intros Heq.
  assert (Hzero : 0 = - (1 / sqrt 2) * 0.1)
    by (etransitivity; [exact Heq | exact Hmodel]).
  pose proof Rlt_sqrt2_0 as Hs.
  pose proof (Rdiv_pos_pos 1 (sqrt 2) ltac:(lra) Hs). lra.
Qed.

(** C4: on the same tick, with steering angle 1, the heading error handed
    to [MPC::Solve] is -atan(1) - 2 * (v / Lf) * delta * dt, whereas
    psi - psi_des - (v / Lf) * delta * dt is -atan(1) - (v / Lf) * delta * dt
    wherever the desired heading is evaluated: line 128 starts from the
    projected heading, which holds the actuation term already, and
    subtracts that term once more. *)
Theorem C4_heading_error_counts_actuation_twice :
  solves_exactly qr_solution line_telemetry ->
  exists call late_epsi,
    prepare_solve indeterminate qr_solution line_telemetry = Ok call /\
    state call !! 5%nat = Some late_epsi /\
    late_epsi = - atan 1 - 2 * (1 / 2.67 * 1 * 0.1) /\
    let s' := KinematicModel 0.1 2.67
                (cubic (coeffs call)) (cubic' (coeffs call))
                (vehicle_frame_state (coeffs call) (j_speed line_telemetry))
                (j_steering_angle line_telemetry)
                (j_throttle line_telemetry) in
    vs_epsi s' = - atan 1 - 1 / 2.67 * 1 * 0.1 /\
    late_epsi <> vs_epsi s' /\
    (forall x, late_epsi
               <> 0 - atan (cubic' (coeffs call) x) + (- (1 / 2.67) * 1 * 0.1)).
Proof.
  intros Hexact.
  destruct (line_telemetry_call Hexact) as (st & Hst & Hp).
  rewrite projected_state_cubic in Hst. injection Hst as <-.
  eexists _, (0 - 1 / Lf * 1 * 0.1
              - atan (1 + 2 * 0 * (0 + 1 * cos 0 * 0.1)
                      + 3 * 0 * (0 + 1 * cos 0 * 0.1) * (0 + 1 * cos 0 * 0.1))
              - 1 / Lf * 1 * 0.1).
  split; [exact Hp |]. split; [reflexivity |].
  assert (Hslope : forall x, cubic' [0; 1; 0; 0] x = 1)
    by (intros x; unfold cubic'; simpl; lra).
  assert (Hcode :
    0 - 1 / Lf * 1 * 0.1
    - atan (1 + 2 * 0 * (0 + 1 * cos 0 * 0.1)
            + 3 * 0 * (0 + 1 * cos 0 * 0.1) * (0 + 1 * cos 0 * 0.1))
    - 1 / Lf * 1 * 0.1
    = - atan 1 - 2 * (1 / 2.67 * 1 * 0.1)).
  { replace (1 + 2 * 0 * (0 + 1 * cos 0 * 0.1)
             + 3 * 0 * (0 + 1 * cos 0 * 0.1) * (0 + 1 * cos 0 * 0.1))
      with 1 by lra.
    unfold Lf. lra. }
  split; [exact Hcode |]. rewrite Hcode.
  unfold KinematicModel, vehicle_frame_state. cbn [vs_x vs_psi vs_v vs_epsi
    coeffs j_speed j_steering_angle j_throttle line_telemetry].
  rewrite !Hslope.
  split; [lra |]. split; [lra |]. intros x. rewrite Hslope. lra.
Qed.

End HandlerFacts.

(** ** A tick with fewer ordinates than abscissae *)

(** C10, as first stated, fails on a message whose [ptsy] is shorter than
    its [ptsx]: the lengths do not match, yet no assertion of the fit is
    violated, for the fit is never called: the waypoint loop reads
    [ptsy[4]] out of range and the run ends there. *)
Lemma C10_short_ptsy_ends_before_the_fit :
  length (j_ptsx short_ptsy_telemetry) <> length (j_ptsy short_ptsy_telemetry) /\
  transform_waypoints 0 (j_ptsx short_ptsy_telemetry)
    (j_ptsy short_ptsy_telemetry) 0 0 0 = Abort UndefinedBehaviour /\
  prepare_solve 0 line_fit short_ptsy_telemetry = Abort UndefinedBehaviour /\
  ~ (forall t : Telemetry,
       length (j_ptsx t) <> length (j_ptsy t) ->
       prepare_solve 0 line_fit t = Abort AssertionFailed).
Proof.
  split; [simpl; lia |]. split; [reflexivity |]. split; [reflexivity |].
  intros H. specialize (H short_ptsy_telemetry ltac:(simpl; lia)).
  discriminate H.
Qed.

(** ** The straight-line tick, run *)

Lemma line_fit_exact : solves_exactly line_fit line_telemetry.
Proof.
  unfold solves_exactly, fitted_coeffs, waypoints_x, waypoints_y, vehicle_x,
    vehicle_y, mat_vec, row_dot, line_fit.
  simpl. rewrite cos_0, sin_0. repeat (f_equal; try lra).
Qed.

Lemma steady_Solve_respects_bounds : Solve_respects_bounds steady_Solve.
Proof.
  intros mpc st c _ _. simpl. pose proof PI2_3_2 as Hpi.
  unfold max_steer, deg2rad. split.
  - intros delta0 [= <-]. lra.
  - intros a0 [= <-]. lra.
Qed.

Lemma C2_projection_is_one_kinematic_step_witness :
  exists call,
    prepare_solve 0 line_fit line_telemetry = Ok call /\
    take 4 (state call) = [0 + 1 * cos 0 * 0.1;
                           0 + 1 * sin 0 * 0.1;
                           0 - 1 / 2.67 * 1 * 0.1;
                           1 + 0 * 0.1].
Proof.
  eexists. split; [reflexivity |].
  apply (C2_projection_is_one_kinematic_step 0 line_fit line_telemetry).
  reflexivity.
Defined.

Lemma C9_projection_keeps_cte_witness :
  exists call,
    prepare_solve 0 line_fit line_telemetry = Ok call /\
    exists c0 late_cte,
      coeffs call !! 0%nat = Some c0 /\
      state call !! 4%nat = Some late_cte /\
      late_cte = vs_cte (vehicle_frame_state (coeffs call) 1) /\
      late_cte = c0.
Proof.
  eexists. split; [reflexivity |].
  apply (C9_projection_keeps_cte 0 line_fit line_telemetry).
  reflexivity.
Defined.

Lemma C7_state_has_six_components_witness :
  exists call,
    prepare_solve 0 line_fit line_telemetry = Ok call /\
    length (state call) = 6%nat.
Proof.
  eexists. split; [reflexivity |].
  apply (C7_state_has_six_components 0 line_fit steady_Solve line_telemetry).
  reflexivity.
Defined.

Lemma C6_four_coefficients_lowest_degree_first_witness :
  exists call,
    prepare_solve 0 line_fit line_telemetry = Ok call /\
    length (coeffs call) = 4%nat.
Proof.
  eexists. split; [reflexivity |].
  apply (C6_four_coefficients_lowest_degree_first 0 line_fit line_telemetry).
  reflexivity.
Defined.

Lemma C1_commands_within_unit_interval_witness :
  exists msg,
    WsSend msg
    ∈ (onMessage_telemetry 0 line_fit steady_Solve idle_mpc line_telemetry).1 /\
    -1 <= steering_angle msg <= 1 /\ -1 <= throttle msg <= 1.
Proof.
  eexists. split.
  - do 2 apply list_elem_of_further. apply list_elem_of_here.
  - apply (C1_commands_within_unit_interval 0 line_fit steady_Solve idle_mpc
             line_telemetry).
    + exact steady_Solve_respects_bounds.
    + do 2 apply list_elem_of_further. apply list_elem_of_here.
Defined.

Lemma C5_command_is_read_from_solution_witness :
  exists tr mpc',
    onMessage_telemetry 0 line_fit steady_Solve idle_mpc line_telemetry
    = (tr, Ok mpc') /\
    exists call vars delta0 a0 msg,
      prepare_solve 0 line_fit line_telemetry = Ok call /\
      steady_Solve idle_mpc (state call) (coeffs call) = (vars, mpc') /\
      vars !! 6%nat = Some delta0 /\
      vars !! 7%nat = Some a0 /\
      tr = [Cout msg; SleepFor 100; WsSend msg] /\
      steering_angle msg = - delta0 / (25 * PI / 180) /\
      throttle msg = a0 /\
      (- (25 * PI / 180) <= delta0 <= 25 * PI / 180 ->
       -1 <= steering_angle msg <= 1) /\
      (0 < delta0 -> steering_angle msg < 0) /\
      (delta0 < 0 -> 0 < steering_angle msg).
Proof.
  eexists _, _. split; [reflexivity |].
  apply (C5_command_is_read_from_solution 0 line_fit steady_Solve idle_mpc).
  reflexivity.
Defined.

Lemma C8_sleep_between_compute_and_send_witness :
  exists tr mpc',
    onMessage_telemetry 0 line_fit steady_Solve idle_mpc line_telemetry
    = (tr, Ok mpc') /\
    exists call vars msg late_x late_v,
      prepare_solve 0 line_fit line_telemetry = Ok call /\
      state call !! 0%nat = Some late_x /\
      late_x = 1 * 0.1 /\
      state call !! 3%nat = Some late_v /\
      late_v = 1 + 0 * 0.1 /\
      steady_Solve idle_mpc (state call) (coeffs call) = (vars, mpc') /\
      steer_message mpc' vars (ptsx_v call) (ptsy_v call) = Ok msg /\
      tr = [Cout msg; SleepFor 100; WsSend msg].
Proof.
  eexists _, _. split; [reflexivity |].
  apply (C8_sleep_between_compute_and_send 0 line_fit steady_Solve idle_mpc
           idle_mpc line_telemetry).
  reflexivity.
Defined.

Lemma C3_cte_projection_drops_heading_error_witness :
  solves_exactly line_fit line_telemetry /\
  exists call late_cte,
    prepare_solve 0 line_fit line_telemetry = Ok call /\
    state call !! 4%nat = Some late_cte /\
    late_cte = 0 /\
    let s' := KinematicModel 0.1 2.67
                (cubic (coeffs call)) (cubic' (coeffs call))
                (vehicle_frame_state (coeffs call) 1) 1 0 in
    vs_cte s' = - (1 / sqrt 2) * 0.1 /\
    late_cte <> vs_cte s'.
Proof.
  split; [exact line_fit_exact |].
  apply (C3_cte_projection_drops_heading_error 0 line_fit).
  exact line_fit_exact.
Defined.

Lemma C4_heading_error_counts_actuation_twice_witness :
  solves_exactly line_fit line_telemetry /\
  exists call late_epsi,
    prepare_solve 0 line_fit line_telemetry = Ok call /\
    state call !! 5%nat = Some late_epsi /\
    late_epsi = - atan 1 - 2 * (1 / 2.67 * 1 * 0.1) /\
    let s' := KinematicModel 0.1 2.67
                (cubic (coeffs call)) (cubic' (coeffs call))
                (vehicle_frame_state (coeffs call) 1) 1 0 in
    vs_epsi s' = - atan 1 - 1 / 2.67 * 1 * 0.1 /\
    late_epsi <> vs_epsi s' /\
    (forall x, late_epsi
               <> 0 - atan (cubic' (coeffs call) x) + (- (1 / 2.67) * 1 * 0.1)).
Proof.
  split; [exact line_fit_exact |].
  apply (C4_heading_error_counts_actuation_twice 0 line_fit).
  exact line_fit_exact.
Defined.

(** * Further properties of the numeric helpers *)

(** ** polyeval (main.cpp, lines 36-42) *)

Lemma poly_sum_zero_tail (cs : list R) (i : nat) :
  poly_sum cs (S i) 0 = 0.
Proof.
  revert i. induction cs as [|c cs IH]; intros i; simpl; [reflexivity |].
  rewrite IH. lra.
Qed.

(** X3: at 0 a polynomial is its constant coefficient, [pow(0, 0)] being 1
    and every higher power 0; without coefficients the value is 0. *)
Theorem polyeval_at_zero (c : list R) :
  exists r, polyeval c 0 = Ok r /\ r = nth 0 c 0.
Proof.
  eexists. split; [apply polyeval_poly_sum |].
  destruct c as [|a cs]; simpl; [reflexivity |].
  rewrite poly_sum_zero_tail. lra.
Qed.

(** X4: the slope expression of lines 120 and 128,
    [coeffs[1] + 2 * coeffs[2] * x + 3 * coeffs[3] * x * x], is the
    derivative of the cubic that [polyeval] evaluates. *)
Theorem slope_is_derivative_of_polyeval (c0 c1 c2 c3 x : R) :
  (forall z, polyeval [c0; c1; c2; c3] z = Ok (cubic [c0; c1; c2; c3] z)) /\
  derivable_pt_lim (cubic [c0; c1; c2; c3]) x
    (c1 + 2 * c2 * x + 3 * c3 * x * x).
Proof.
  split; [intros z; apply polyeval_poly_sum |].
  assert (Hext : forall z,
    cubic [c0; c1; c2; c3] z
    = (fct_cte c0 + mult_real_fct c1 id
       + mult_real_fct c2 (id * id)
       + mult_real_fct c3 (id * id * id))%F z).
  { intros z. unfold cubic, plus_fct, mult_real_fct, mult_fct, fct_cte, id.
    simpl. lra. }
  eassert (Hd : derivable_pt_lim
    (fct_cte c0 + mult_real_fct c1 id + mult_real_fct c2 (id * id)
     + mult_real_fct c3 (id * id * id))%F x _).
  { repeat first
      [ apply derivable_pt_lim_plus
      | apply derivable_pt_lim_scal
      | apply derivable_pt_lim_mult
      | apply derivable_pt_lim_id
      | apply derivable_pt_lim_const ]. }
  match type of Hd with
  | derivable_pt_lim _ _ ?l =>
      replace (c1 + 2 * c2 * x + 3 * c3 * x * x) with l
        by (unfold mult_fct, id; lra)
  end.
  intros eps Heps. destruct (Hd eps Heps) as [delta Hdelta].
  exists delta. intros h Hh Hlt. rewrite !Hext. apply Hdelta; assumption.
Qed.

(** ** polyfit (main.cpp, lines 47-66) *)

Lemma length_geometric (a x : R) (k : nat) :
  length (geometric a x k) = S k.
Proof. revert a. induction k as [|k IH]; intros a; simpl; [| rewrite IH]; reflexivity. Qed.

(** Each entry of a row is the previous entry times [x]. *)
Lemma geometric_lookup_S (a x : R) (k i : nat) (v : R) :
  geometric a x k !! i = Some v -> (i < k)%nat ->
  geometric a x k !! S i = Some (v * x).
Proof.
  revert a i. induction k as [|k IH]; intros a i Hv Hi; [lia |].
  destruct i as [|i]; simpl in *.
  - injection Hv as <-. destruct k; reflexivity.
  - apply IH; [assumption | lia].
Qed.

Lemma geometric_lookup_pow (a x : R) (k i : nat) (v : R) :
  geometric a x k !! i = Some v -> v = a * x ^ i.
Proof.
  revert a i. induction k as [|k IH]; intros a [|i] Hv; simpl in *.
  - injection Hv as <-. lra.
  - discriminate.
  - injection Hv as <-. lra.
  - apply IH in Hv. rewrite Hv. lra.
Qed.


Section NumericFacts.

Variable indeterminate : R.
Variable qr_solution : list (list R) -> list R -> nat -> R.
Variable Solve : MPC -> list R -> list R -> list R * MPC.

(** The inner loop of [polyfit] on row [j], whose first entry is 1. *)
Lemma polyfit_row (A0 : list (list R)) (xvals : list R) (j k : nat) (x : R) :
  A0 !! j = Some (1 :: replicate k indeterminate) ->
  xvals !! j = Some x ->
  for_loop 0 k (fun i A =>
    a ← mat_get A j i; xj ← vec_get xvals j; mat_set A j (i + 1) (a * xj)) A0
  = Ok (<[j:=geometric 1 x k]> A0).
Proof.
  intros HA0 Hx.
  assert (Hj : (j < length A0)%nat) by (apply lookup_lt_Some in HA0; exact HA0).
  destruct (for_loop_total
    (fun i A => A = <[j:=take (S i) (geometric 1 x k)
                          ++ replicate (k - i) indeterminate]> A0)
    (fun i A =>
       a ← mat_get A j i; xj ← vec_get xvals j; mat_set A j (i + 1) (a * xj))
    k 0 A0) as (A & -> & HA).
  - rewrite Nat.sub_0_r. symmetry. apply list_insert_id.
    rewrite HA0. destruct k; reflexivity.
  - intros i A Hi ->.
    destruct (lookup_lt_is_Some_2 (geometric 1 x k) i) as [a Ha];
      [rewrite length_geometric; lia |].
    assert (Hlen : length (take (S i) (geometric 1 x k)) = (i + 1)%nat)
      by (rewrite length_take, length_geometric; lia).
    eexists. split.
    + eapply polyfit_step; [apply list_lookup_insert_eq; exact Hj | |
                            | exact Hx].
      * rewrite lookup_app_l by lia. rewrite lookup_take_lt by lia. exact Ha.
      * rewrite length_app, Hlen, length_replicate. lia.
    + rewrite list_insert_insert_eq. f_equal.
      replace (k - i)%nat with (S (k - S i)) by lia.
      rewrite <- Hlen at 1. rewrite insert_fill. f_equal.
      symmetry. apply take_S_r. apply geometric_lookup_S; [exact Ha | lia].
  - simpl in HA. subst A. rewrite Nat.sub_diag. simpl. rewrite app_nil_r.
    rewrite take_ge by (rewrite length_geometric; lia). reflexivity.
Qed.

(** X5: [polyfit] either stops at one of its two assertions, or hands to
    Eigen the Vandermonde matrix of [xvals], one row [1, x, ..., x^order]
    for each abscissa, and returns [order + 1] coefficients. *)
Theorem polyfit_vandermonde (xvals yvals : list R) (order : Z) :
  polyfit indeterminate qr_solution xvals yvals order
  = (if decide (length xvals = length yvals /\
                (1 <= order <= Z.of_nat (length xvals) - 1)%Z)
     then Ok (householderQr_solve qr_solution (S (Z.to_nat order))
                ((fun x => geometric 1 x (Z.to_nat order)) <$> xvals) yvals)
     else Abort AssertionFailed) /\
  (forall c, polyfit indeterminate qr_solution xvals yvals order = Ok c ->
             length c = S (Z.to_nat order)) /\
  (forall (x : R) (i : nat) (a : R),
     geometric 1 x (Z.to_nat order) !! i = Some a -> a = x ^ i).
Proof.
  assert (Heq : polyfit indeterminate qr_solution xvals yvals order
    = (if decide (length xvals = length yvals /\
                  (1 <= order <= Z.of_nat (length xvals) - 1)%Z)
       then Ok (householderQr_solve qr_solution (S (Z.to_nat order))
                  ((fun x => geometric 1 x (Z.to_nat order)) <$> xvals) yvals)
       else Abort AssertionFailed)).
  { unfold polyfit.
    destruct (Z.eqb_spec (Z.of_nat (length xvals)) (Z.of_nat (length yvals)))
      as [Hlen|Hlen]; simpl; [| case_decide; [lia | reflexivity]].
    destruct (Z.leb_spec 1 order) as [Hone|Hone]; simpl;
      [| case_decide; [lia | reflexivity]].
    destruct (Z.leb_spec order (Z.of_nat (length xvals) - 1)) as [Hle|Hle];
      simpl; [| case_decide; [lia | reflexivity]].
    case_decide as Hok; [| lia]. clear Hok.
    replace (Z.to_nat (order + 1)) with (S (Z.to_nat order)) by lia.
    set (k := Z.to_nat order). set (n := length xvals).
    set (row0 := 1 :: replicate k indeterminate).
    destruct (for_loop_total
      (fun i A => A = replicate i row0
                      ++ replicate (n - i) (replicate (S k) indeterminate))
      (fun i A => mat_set A i 0 1) n 0 (MatrixXd_new indeterminate n (S k)))
      as (A1 & -> & HA1).
    { simpl. rewrite Nat.sub_0_r. reflexivity. }
    { intros j A Hj ->. eexists. split.
      - apply mat_set_Some with (row := replicate (S k) indeterminate).
        + rewrite lookup_app_r by (rewrite length_replicate; lia).
          apply lookup_replicate_2. rewrite length_replicate. lia.
        + simpl. lia.
      - replace (n - j)%nat with (S (n - S j)) by lia.
        rewrite <- (length_replicate j row0) at 1.
        rewrite insert_fill, <- replicate_S_end. reflexivity. }
    simpl in HA1. rewrite Nat.sub_diag, app_nil_r in HA1. subst A1.
    cbn [mbind result_bind].
    destruct (for_loop_total
      (fun j A => A = ((fun x => geometric 1 x k) <$> take j xvals)
                      ++ replicate (n - j) row0)
      (fun j A => for_loop 0 k (fun i A =>
         a ← mat_get A j i; xj ← vec_get xvals j; mat_set A j (i + 1) (a * xj))
         A) n 0 (replicate n row0))
      as (A2 & -> & HA2).
    { simpl. rewrite Nat.sub_0_r. reflexivity. }
    { intros j A Hj ->.
      destruct (lookup_lt_is_Some_2 xvals j) as [x Hx]; [fold n; lia |].
      assert (Hdone :
        length ((fun x => geometric 1 x k) <$> take j xvals) = j)
        by (rewrite length_fmap, length_take; fold n; lia).
      eexists. split.
      - apply polyfit_row with (x := x); [| exact Hx].
        rewrite lookup_app_r by lia. rewrite Hdone, Nat.sub_diag.
        apply lookup_replicate_2. lia.
      - replace (n - j)%nat with (S (n - S j)) by lia.
        rewrite <- Hdone at 1. rewrite insert_fill.
        rewrite (take_S_r _ _ _ Hx), fmap_app. reflexivity. }
    simpl in HA2. rewrite Nat.sub_diag, app_nil_r in HA2. subst A2.
    unfold n. rewrite firstn_all. reflexivity. }
  split; [exact Heq |]. split.
  - intros c. rewrite Heq. case_decide; [| discriminate].
    intros [= <-]. unfold householderQr_solve.
    rewrite length_fmap, length_seq. reflexivity.
  - intros x i a Ha. apply geometric_lookup_pow in Ha. lra.
Qed.


(** ** The waypoint transform (main.cpp, lines 99-108) *)

Lemma transform_waypoints_inv (ptsx ptsy : list R) (px py psi : R)
  (xv yv : list R) :
  transform_waypoints indeterminate ptsx ptsy px py psi = Ok (xv, yv) ->
  (length ptsx <= length ptsy)%nat /\
  xv = zip_with (vehicle_x px py psi) ptsx ptsy /\
  yv = zip_with (vehicle_y px py psi) ptsx ptsy
       ++ replicate (length ptsy - length ptsx) indeterminate.
Proof.
  intros H. pose proof (transform_waypoints_Ok_le _ _ _ _ _ _ _ H) as Hle.
  rewrite transform_waypoints_total in H by assumption.
  injection H as <- <-. auto.
Qed.

Lemma transform_waypoints_lookup (ptsx ptsy : list R) (px py psi : R)
  (xv yv : list R) (i : nat) (x y : R) :
  transform_waypoints indeterminate ptsx ptsy px py psi = Ok (xv, yv) ->
  ptsx !! i = Some x -> ptsy !! i = Some y ->
  xv !! i = Some (vehicle_x px py psi x y) /\
  yv !! i = Some (vehicle_y px py psi x y).
Proof.
  intros H Hx Hy. apply transform_waypoints_inv in H as (_ & -> & ->).
  split.
  - rewrite lookup_zip_with, Hx, Hy. reflexivity.
  - rewrite lookup_app_l.
    + rewrite lookup_zip_with, Hx, Hy. reflexivity.
    + apply lookup_lt_Some in Hx, Hy. rewrite length_zip_with. lia.
Qed.


(** X7: the transform keeps the sizes of [ptsx] and [ptsy]; a waypoint at
    the vehicle's own position becomes the origin (0, 0) of the vehicle
    frame, whatever the heading; and for a heading of 0 the transform is
    the shift by the vehicle's position. *)
Theorem transform_waypoints_origin_and_shift (ptsx ptsy : list R)
  (px py psi : R) (xv yv : list R) :
  transform_waypoints indeterminate ptsx ptsy px py psi = Ok (xv, yv) ->
  length xv = length ptsx /\
  length yv = length ptsy /\
  (forall i, ptsx !! i = Some px -> ptsy !! i = Some py ->
     exists a b, xv !! i = Some a /\ yv !! i = Some b /\ a = 0 /\ b = 0) /\
  (psi = 0 ->
   forall i x y, ptsx !! i = Some x -> ptsy !! i = Some y ->
     exists a b,
       xv !! i = Some a /\ yv !! i = Some b /\ a = x - px /\ b = y - py).
Proof.
  intros H. split; [| split; [| split]].
  - apply transform_waypoints_inv in H as (Hle & -> & _).
    rewrite length_zip_with. lia.
  - apply transform_waypoints_inv in H as (Hle & _ & ->).
    rewrite length_app, length_zip_with, length_replicate. lia.
  - intros i Hx Hy.
    destruct (transform_waypoints_lookup _ _ _ _ _ _ _ _ _ _ H Hx Hy)
      as [Ha Hb].
    eexists _, _. split; [exact Ha |]. split; [exact Hb |].
    unfold vehicle_x, vehicle_y. split; lra.
  - intros -> i x y Hx Hy.
    destruct (transform_waypoints_lookup _ _ _ _ _ _ _ _ _ _ H Hx Hy)
      as [Ha Hb].
    eexists _, _. split; [exact Ha |]. split; [exact Hb |].
    unfold vehicle_x, vehicle_y. rewrite cos_0, sin_0. split; lra.
Qed.


(** ** The reply (main.cpp, lines 135-167) *)

(** X9: an answered telemetry event draws what this event produced: the
    reference line of the reply is the list of this event's waypoints in
    vehicle coordinates, one point for each waypoint received, and the
    predicted path is the one the controller holds after this call of the
    solver. *)
Theorem reply_shows_this_event (mpc mpc' : MPC) (t : Telemetry)
  (tr : list event) :
  onMessage_telemetry indeterminate qr_solution Solve mpc t = (tr, Ok mpc') ->
  exists call vars msg,
    Solve mpc (state call) (coeffs call) = (vars, mpc') /\
    tr = [Cout msg; SleepFor 100; WsSend msg] /\
    next_x msg = waypoints_x t /\
    next_y msg = waypoints_y t /\
    length (next_x msg) = length (j_ptsx t) /\
    length (next_y msg) = length (j_ptsx t) /\
    mpc_x msg = next_path_xs mpc' /\
    mpc_y msg = next_path_ys mpc'.
Proof.
  intros Htick.
  pose proof Htick as Htick'.
  apply onMessage_telemetry_Ok in Htick'
    as (call & vars & msg & Hp & HS & Hmsg & ->).
  destruct (steer_message_Ok _ _ _ _ _ Hmsg)
    as (delta0 & a0 & Hd & Ha & _).
  pose proof (onMessage_telemetry_total indeterminate qr_solution Solve
                mpc mpc' t call vars delta0 a0 Hp HS Hd Ha) as Htotal.
  cbv zeta in Htotal. rewrite Htick in Htotal.
  injection Htotal as Hmsg'.
  destruct (prepare_solve_Ok _ _ _ _ Hp) as [Hlen Hfour].
  exists call, vars, msg. rewrite Hmsg'. simpl.
  unfold waypoints_x, waypoints_y. rewrite !length_zip_with.
  repeat split; try reflexivity; try assumption; lia.
Qed.

End NumericFacts.

(** * The frame scanner *)

(** ** Searching a string *)

Lemma starts_with_spec (p s : list ascii) :
  starts_with p s = true <-> exists v, s = p ++ v.
Proof.
  revert s. induction p as [|a p IH]; intros s; simpl.
  - split; [eauto | reflexivity].
  - destruct s as [|b s].
    + split; [discriminate | intros [v Hv]; discriminate].
    + case_decide as Hab.
      * subst b. rewrite IH. split; intros [v Hv]; exists v; congruence.
      * split; [discriminate | intros [v Hv]; congruence].
Qed.

Lemma occurs_drop (p s : list ascii) :
  occurs p s <-> exists k, starts_with p (drop k s) = true.
Proof.
  split.
  - intros (u & v & ->). exists (length u).
    rewrite drop_app_length. apply starts_with_spec. eauto.
  - intros [k Hk]. apply starts_with_spec in Hk as [v Hv].
    exists (take k s), v. rewrite <- Hv. symmetry. apply take_drop.
Qed.

Lemma str_find_from_cases (s p : list ascii) (pos : nat) :
  match str_find_from s p pos with
  | Some r => exists i, r = (pos + i)%nat /\
                        starts_with p (drop i s) = true /\
                        forall k, (k < i)%nat -> starts_with p (drop k s) = false
  | None => forall k, starts_with p (drop k s) = false
  end.
Proof.
  revert pos. induction s as [|c s IH]; intros pos; simpl.
  - destruct (starts_with p []) eqn:Hp.
    + exists 0%nat. split; [lia |]. split; [exact Hp | intros; lia].
    + intros k. rewrite drop_nil. exact Hp.
  - destruct (starts_with p (c :: s)) eqn:Hp.
    + exists 0%nat. split; [lia |]. split; [exact Hp | intros; lia].
    + specialize (IH (S pos)). destruct (str_find_from s p (S pos)) as [r|].
      * destruct IH as (i & -> & Hi & Hmin). exists (S i).
        split; [lia |]. split; [exact Hi |].
        intros [|k] Hk; [exact Hp | apply Hmin; lia].
      * intros [|k]; [exact Hp | apply IH].
Qed.

Lemma str_find_None (s p : list ascii) :
  ~ occurs p s -> str_find s p = None.
Proof.
  intros Hno. unfold str_find.
  pose proof (str_find_from_cases s p 0) as H.
  destruct (str_find_from s p 0); [| reflexivity].
  destruct H as (i & _ & Hi & _). exfalso. apply Hno, occurs_drop. eauto.
Qed.

Lemma str_find_Some (s p : list ascii) :
  occurs p s -> exists i, str_find s p = Some i.
Proof.
  intros Hocc. unfold str_find.
  pose proof (str_find_from_cases s p 0) as H.
  destruct (str_find_from s p 0); [eauto |].
  apply occurs_drop in Hocc as [k Hk]. rewrite H in Hk. discriminate.
Qed.

Lemma str_find_first_of_from_app (u v : list ascii) (c : ascii) (pos : nat) :
  c ∉ u ->
  str_find_first_of_from (u ++ c :: v) [c] pos = Some (pos + length u)%nat.
Proof.
  revert pos. induction u as [|a u IH]; intros pos Hu; simpl.
  - case_decide as Hc; [f_equal; lia |].
    exfalso. apply Hc, list_elem_of_here.
  - apply not_elem_of_cons in Hu as [Hne Hu].
    case_decide as Ha.
    + apply list_elem_of_singleton in Ha. congruence.
    + rewrite IH by assumption. f_equal. lia.
Qed.

Lemma str_find_first_of_from_Some (s chars : list ascii) (pos r : nat) :
  str_find_first_of_from s chars pos = Some r ->
  exists i c, r = (pos + i)%nat /\ s !! i = Some c /\ c ∈ chars /\
              forall a, a ∈ take i s -> a ∉ chars.
Proof.
  revert pos. induction s as [|b s IH]; intros pos; simpl; [discriminate |].
  case_decide as Hb.
  - intros [= <-]. exists 0%nat, b. split; [lia |]. split; [reflexivity |].
    split; [exact Hb |]. simpl. intros a Ha. apply elem_of_nil in Ha. contradiction.
  - intros H. apply IH in H as (i & c & -> & Hi & Hc & Hmin).
    exists (S i), c. split; [lia |]. split; [exact Hi |]. split; [exact Hc |].
    simpl. intros a Ha. apply elem_of_cons in Ha as [->|Ha]; [exact Hb | auto].
Qed.

Lemma str_rfind_from_cases (s p : list ascii) (pos : nat) :
  match str_rfind_from s p pos with
  | Some r => exists i, r = (pos + i)%nat /\ (i <= length s)%nat /\
                        starts_with p (drop i s) = true /\
                        forall k, (i < k <= length s)%nat ->
                                  starts_with p (drop k s) = false
  | None => forall k, (k <= length s)%nat -> starts_with p (drop k s) = false
  end.
Proof.
  revert pos. induction s as [|c s IH]; intros pos; simpl.
  - destruct (starts_with p []) eqn:Hp.
    + exists 0%nat. split; [lia |]. split; [lia |].
      split; [exact Hp | intros; lia].
    + intros k Hk. rewrite drop_nil. exact Hp.
  - specialize (IH (S pos)). destruct (str_rfind_from s p (S pos)) as [r|].
    + destruct IH as (i & -> & Hle & Hi & Hmax). exists (S i).
      split; [lia |]. split; [lia |]. split; [exact Hi |].
      intros [|k] Hk; [lia | apply Hmax; lia].
    + destruct (starts_with p (c :: s)) eqn:Hp.
      * exists 0%nat. split; [lia |]. split; [lia |]. split; [exact Hp |].
        intros [|k] Hk; [lia | apply IH; lia].
      * intros [|k] Hk; [exact Hp | apply IH; lia].
Qed.

(** The last occurrence of ["}]"] is the one after which there is none. *)
Lemma str_rfind_close (u v : list ascii) :
  ~ occurs str_close v ->
  str_rfind (u ++ str_close ++ v) str_close = Some (length u).
Proof.
  intros Hno. unfold str_rfind.
  assert (Hgen : forall pos,
    str_rfind_from (u ++ str_close ++ v) str_close pos
    = Some (pos + length u)%nat); [| rewrite Hgen; reflexivity].
  induction u as [|a u IH]; intros pos.
  - pose proof (str_rfind_from_cases (str_close ++ v) str_close pos) as H.
    change ([] ++ str_close ++ v) with (str_close ++ v).
    destruct (str_rfind_from (str_close ++ v) str_close pos) as [r|].
    + destruct H as (i & -> & _ & Hi & _). f_equal.
      destruct i as [|[|i]]; [reflexivity | simpl in Hi; discriminate |].
      exfalso. apply Hno, occurs_drop. exists i. exact Hi.
    + specialize (H 0%nat ltac:(lia)). simpl in H. discriminate.
  - simpl. rewrite IH. f_equal. lia.
Qed.

Lemma size_t_small (z : Z) :
  (0 <= z < 2 ^ 64)%Z -> size_t z = z.
Proof. intros H. unfold size_t. apply Z.mod_small. exact H. Qed.

(** ** hasData (main.cpp, lines 23-33) *)

(** X10: a frame in which ["null"] occurs anywhere carries no data: the
    empty string is returned, whatever brackets the frame has. *)
Theorem hasData_null (s : list ascii) :
  occurs str_null s -> hasData s = Some [].
Proof.
  intros Hocc. unfold hasData.
  destruct (str_find_Some _ _ Hocc) as [i ->]. reflexivity.
Qed.

(** X11: [hasData] never throws: [substr] is only called at a position of
    the string.  What it returns is empty, or a piece of the frame that
    begins at the first ['['] of a frame without ["null"]. *)
Theorem hasData_returns_piece_of_frame (s : list ascii) :
  exists r,
    hasData s = Some r /\
    (r = [] \/
     (~ occurs str_null s /\
      exists pre rest post,
        s = pre ++ r ++ post /\ r = "["%char :: rest /\ "["%char ∉ pre)).
Proof.
  unfold hasData.
  pose proof (str_find_from_cases s str_null 0) as Hnull.
  fold (str_find s str_null) in Hnull.
  destruct (str_find s str_null) as [i|]; [eauto |].
  destruct (str_find_first_of s str_open) as [b1|] eqn:Hb1; [| eauto].
  destruct (str_rfind s str_close) as [b2|]; [| eauto].
  apply str_find_first_of_from_Some in Hb1 as (i & c & -> & Hi & Hc & Hmin).
  apply list_elem_of_singleton in Hc. subst c. simpl.
  unfold str_substr. pose proof (lookup_lt_Some _ _ _ Hi) as Hlt.
  case_decide; [| lia].
  set (n := Z.to_nat (size_t (Z.of_nat b2 - Z.of_nat i + 2))).
  eexists. split; [reflexivity |].
  destruct (take n (drop i s)) as [|a rest] eqn:Hr; [left; reflexivity |].
  right. split.
  - intros Hocc. apply occurs_drop in Hocc as [k Hk].
    rewrite Hnull in Hk. discriminate.
  - exists (take i s), rest, (drop n (drop i s)).
    assert (Ha : a = "["%char).
    { assert (H0 : take n (drop i s) !! 0%nat = Some a)
        by (rewrite Hr; reflexivity).
      destruct n as [|n']; [discriminate |].
      rewrite lookup_take_lt in H0 by lia.
      rewrite lookup_drop, Nat.add_0_r, Hi in H0. congruence. }
    subst a. split; [| split].
    + rewrite <- Hr, take_drop, take_drop. reflexivity.
    + reflexivity.
    + intros Hin. apply (Hmin _ Hin). apply list_elem_of_here.
Qed.

(** X12: for a frame without ["null"] whose first ['['] comes before its
    last ["}]"], [hasData] returns the text from that bracket to that
    ["}]"], both included: the JSON array of the event, without the
    prefix before it and whatever follows it. *)
Theorem hasData_payload (pre mid post : list ascii) :
  let s := pre ++ "["%char :: mid ++ str_close ++ post in
  "["%char ∉ pre ->
  ~ occurs str_close post ->
  ~ occurs str_null s ->
  (Z.of_nat (length s) < 2 ^ 64)%Z ->
  hasData s = Some ("["%char :: mid ++ str_close).
Proof.
  intros s Hpre Hclose Hnull Hsize. unfold hasData.
  rewrite (str_find_None _ _ Hnull).
  assert (Hb1 : str_find_first_of s str_open = Some (length pre)).
  { unfold s, str_find_first_of, str_open.
    rewrite str_find_first_of_from_app by assumption. reflexivity. }
  assert (Hb2 : str_rfind s str_close
                = Some (length (pre ++ "["%char :: mid))).
  { unfold s. rewrite <- str_rfind_close with (v := post) by assumption.
    rewrite <- app_assoc. reflexivity. }
  rewrite Hb1, Hb2.
  assert (Hlen : length s
                 = (length pre + S (length mid + (2 + length post)))%nat).
  { unfold s. rewrite length_app. simpl. rewrite length_app. simpl. lia. }
  rewrite Hlen in Hsize. change (2 ^ 64)%Z with 18446744073709551616%Z in Hsize.
  rewrite length_app. simpl length.
  rewrite size_t_small
    by (change (2 ^ 64)%Z with 18446744073709551616%Z; lia).
  unfold str_substr. case_decide as Hpos; [| lia].
  f_equal. unfold s. rewrite drop_app_length.
  replace (Z.to_nat (Z.of_nat (length pre + S (length mid))
                     - Z.of_nat (length pre) + 2))
    with (length ("["%char :: mid ++ str_close))
    by (simpl; rewrite length_app; simpl; lia).
  change ("["%char :: mid ++ str_close ++ post)
    with (("["%char :: mid) ++ str_close ++ post).
  rewrite app_assoc. apply take_app_length.
Qed.

(** X13: when the last ["}]"] of a frame without ["null"] lies before its
    first ['['], the length handed to [substr] is computed in [size_t]:
    it is 0 when the bracket follows the ["}]"] at once, and the result is
    empty; otherwise it wraps around, and the result is the whole rest of
    the frame from the bracket on. *)
Theorem hasData_close_before_open (pre mid post : list ascii) :
  let s := pre ++ str_close ++ mid ++ "["%char :: post in
  "["%char ∉ pre ->
  "["%char ∉ mid ->
  ~ occurs str_close (mid ++ "["%char :: post) ->
  ~ occurs str_null s ->
  (Z.of_nat (length s) < 2 ^ 64)%Z ->
  hasData s = Some (if decide (mid = []) then [] else "["%char :: post).
Proof.
  intros s Hpre Hmid Hclose Hnull Hsize. unfold hasData.
  rewrite (str_find_None _ _ Hnull).
  assert (Hb2 : str_rfind s str_close = Some (length pre))
    by (unfold s; apply str_rfind_close; assumption).
  assert (Hb1 : str_find_first_of s str_open
                = Some (length (pre ++ str_close ++ mid))).
  { unfold s, str_find_first_of, str_open.
    replace (pre ++ str_close ++ mid ++ "["%char :: post)
      with ((pre ++ str_close ++ mid) ++ "["%char :: post)
      by (rewrite <- !app_assoc; reflexivity).
    rewrite str_find_first_of_from_app; [reflexivity |].
    rewrite !elem_of_app. intros [H | [H | H]]; [auto | | auto].
    unfold str_close in H. rewrite !elem_of_cons in H.
    destruct H as [H | [H | H]]; [discriminate | discriminate |].
    apply elem_of_nil in H. contradiction. }
  rewrite Hb1, Hb2.
  assert (Hlen : length s
                 = (length pre + (2 + (length mid + S (length post))))%nat).
  { unfold s. rewrite !length_app. simpl. lia. }
  rewrite Hlen in Hsize. change (2 ^ 64)%Z with 18446744073709551616%Z in Hsize.
  unfold str_substr. case_decide as Hpos.
  2:{ exfalso. apply Hpos. rewrite !length_app. simpl. lia. }
  f_equal. unfold s.
  replace (pre ++ str_close ++ mid ++ "["%char :: post)
    with ((pre ++ str_close ++ mid) ++ "["%char :: post)
    by (rewrite <- !app_assoc; reflexivity).
  rewrite drop_app_length. rewrite !length_app. simpl length.
  destruct mid as [|m mid]; simpl length.
  - replace (Z.of_nat (length pre) - Z.of_nat (length pre + (2 + 0)) + 2)%Z
      with 0%Z by lia.
    reflexivity.
  - case_decide; [discriminate |].
    apply take_ge. unfold size_t.
    change (2 ^ 64)%Z with 18446744073709551616%Z.
    replace ((Z.of_nat (length pre)
              - Z.of_nat (length pre + (2 + S (length mid))) + 2)
             mod 18446744073709551616)%Z
      with (18446744073709551616 - Z.of_nat (S (length mid)))%Z.
    + simpl length in *. lia.
    + symmetry.
      rewrite <- (Z.mod_add _ 1 18446744073709551616) by lia.
      rewrite Z.mod_small; simpl length in *; lia.
Qed.

Lemma hasData_payload_witness :
  hasData (String.list_ascii_of_string "42[x,{}]"%string)
  = Some (String.list_ascii_of_string "[x,{}]"%string).
Proof.
  apply (hasData_payload
           (String.list_ascii_of_string "42"%string) (String.list_ascii_of_string "x,{"%string) []).
  - simpl. rewrite !elem_of_cons. intros [H | [H | H]];
      [discriminate | discriminate | apply elem_of_nil in H; contradiction].
  - intros (u & v & H). destruct u; discriminate.
  - intros H. apply occurs_drop in H as [k Hk].
    do 10 (destruct k as [|k]; [discriminate |]). discriminate.
  - simpl. lia.
Defined.

Lemma hasData_close_before_open_witness :
  hasData (String.list_ascii_of_string "42}]ab[x"%string)
  = Some (String.list_ascii_of_string "[x"%string).
Proof.
  apply (hasData_close_before_open
           (String.list_ascii_of_string "42"%string) (String.list_ascii_of_string "ab"%string)
           (String.list_ascii_of_string "x"%string)).
  - simpl. rewrite !elem_of_cons. intros [H | [H | H]];
      [discriminate | discriminate | apply elem_of_nil in H; contradiction].
  - simpl. rewrite !elem_of_cons. intros [H | [H | H]];
      [discriminate | discriminate | apply elem_of_nil in H; contradiction].
  - intros H. apply occurs_drop in H as [k Hk].
    do 5 (destruct k as [|k]; [discriminate |]). discriminate.
  - intros H. apply occurs_drop in H as [k Hk].
    do 10 (destruct k as [|k]; [discriminate |]). discriminate.
  - simpl. lia.
Defined.

Lemma hasData_null_witness :
  occurs str_null (String.list_ascii_of_string "42[x,null]"%string) /\
  hasData (String.list_ascii_of_string "42[x,null]"%string) = Some [].
Proof.
  assert (H : occurs str_null (String.list_ascii_of_string "42[x,null]"%string)).
  { exists (String.list_ascii_of_string "42[x,"%string), (String.list_ascii_of_string "]"%string).
    reflexivity. }
  split; [exact H |]. apply (hasData_null _ H).
Defined.

(** ** The message handler (main.cpp, lines 74-175) *)

Lemma str_find_first_of_None (s : list ascii) (c : ascii) :
  c ∉ s -> str_find_first_of s [c] = None.
Proof.
  unfold str_find_first_of. generalize 0%nat.
  induction s as [|a s IH]; intros pos Hc; simpl; [reflexivity |].
  apply not_elem_of_cons in Hc as [Hne Hc].
  case_decide as Ha.
  - apply list_elem_of_singleton in Ha. congruence.
  - apply IH, Hc.
Qed.

Lemma str_rfind_None (s p : list ascii) :
  ~ occurs p s -> str_rfind s p = None.
Proof.
  intros Hno. unfold str_rfind.
  pose proof (str_rfind_from_cases s p 0) as H.
  destruct (str_rfind_from s p 0); [| reflexivity].
  destruct H as (i & _ & _ & Hi & _). exfalso. apply Hno, occurs_drop. eauto.
Qed.

Lemma hasData_no_brackets (s : list ascii) :
  "["%char ∉ s \/ ~ occurs str_close s -> hasData s = Some [].
Proof.
  intros H. unfold hasData.
  destruct (str_find s str_null); [reflexivity |].
  destruct H as [H | H].
  - unfold str_open. rewrite (str_find_first_of_None _ _ H). reflexivity.
  - rewrite (str_rfind_None _ _ H).
    destruct (str_find_first_of s str_open); reflexivity.
Qed.

Lemma is_event_frame_42 (c : ascii) (rest : list ascii) :
  is_event_frame ("4"%char :: "2"%char :: c :: rest) = true.
Proof.
  unfold is_event_frame. rewrite !andb_true_iff, !bool_decide_eq_true.
  simpl. repeat split; try reflexivity. lia.
Qed.

Lemma c_string_text (T rest : list ascii) :
  NUL ∉ T -> c_string (T ++ NUL :: rest) = Some T.
Proof.
  induction T as [|a T IH]; simpl; intros H.
  - reflexivity.
  - apply not_elem_of_cons in H as [Hne H].
    case_decide; [congruence |]. rewrite IH by assumption. reflexivity.
Qed.

Lemma str_substr_front (str : list ascii) (len : nat) :
  str_substr str 0 (Z.of_nat len) = Some (take len str).
Proof.
  unfold str_substr. case_decide; [| lia]. rewrite Nat2Z.id. reflexivity.
Qed.

Lemma str_find_None_inv (s p : list ascii) :
  str_find s p = None -> ~ occurs p s.
Proof.
  unfold str_find. intros H Hocc.
  pose proof (str_find_from_cases s p 0) as Hc. rewrite H in Hc.
  apply occurs_drop in Hocc as [k Hk]. rewrite Hc in Hk. discriminate.
Qed.

Section DispatchFacts.

Variable indeterminate : R.
Variable qr_solution : list (list R) -> list R -> nat -> R.
Variable Solve : MPC -> list R -> list R -> list R * MPC.
Variable json_event : list ascii -> option (list ascii).
Variable json_telemetry : list ascii -> option Telemetry.

Local Abbreviation onMessage_sdata :=
  (onMessage_sdata indeterminate qr_solution Solve json_event json_telemetry).
Local Abbreviation onMessage :=
  (onMessage indeterminate qr_solution Solve json_event json_telemetry).

(** The handler works on the characters before the first NUL, [len] of
    them at most. *)
Lemma onMessage_text (mpc : MPC) (T rest : list ascii) (len : nat) :
  NUL ∉ T ->
  onMessage mpc (T ++ NUL :: rest) len = onMessage_sdata mpc (take len T).
Proof.
  intros H. unfold onMessage.
  rewrite (c_string_text _ _ H), str_substr_front. reflexivity.
Qed.

Lemma onMessage_sdata_manual (mpc : MPC) (c : ascii) (r : list ascii) :
  let sdata := "4"%char :: "2"%char :: c :: r in
  occurs str_null sdata \/ "["%char ∉ sdata \/ ~ occurs str_close sdata ->
  onMessage_sdata mpc sdata
  = ([StdoutLine sdata; SocketText manual_msg], Returned mpc).
Proof.
  intros sdata H. unfold onMessage_sdata.
  assert (Hframe : is_event_frame sdata = true)
    by apply is_event_frame_42.
  rewrite Hframe.
  assert (Hdata : hasData sdata = Some []).
  { destruct H as [H | H]; [apply hasData_null, H |].
    apply hasData_no_brackets, H. }
  rewrite Hdata. reflexivity.
Qed.

Lemma onMessage_sdata_telemetry_frame (mpc : MPC) (mid post : list ascii)
  (t : Telemetry) :
  let payload := "["%char :: mid ++ str_close in
  let sdata := "4"%char :: "2"%char :: payload ++ post in
  ~ occurs str_close post ->
  ~ occurs str_null sdata ->
  (Z.of_nat (length sdata) < 2 ^ 64)%Z ->
  json_event payload = Some str_telemetry ->
  json_telemetry payload = Some t ->
  hasData sdata = Some payload /\
  onMessage_sdata mpc sdata
  = (StdoutLine sdata
     :: (TickEvent
         <$> (onMessage_telemetry indeterminate qr_solution Solve mpc t).1),
     match (onMessage_telemetry indeterminate qr_solution Solve mpc t).2 with
     | Ok mpc' => Returned mpc'
     | Abort e => Stopped e
     end).
Proof.
  intros payload sdata Hclose Hnull Hsize Hevent Htel.
  assert (Hdata : hasData sdata = Some payload).
  { pose proof (hasData_payload ["4"; "2"]%char mid post) as H.
    cbv zeta in H. unfold sdata, payload.
    replace ("4"%char :: "2"%char :: ("["%char :: mid ++ str_close) ++ post)
      with (["4"; "2"]%char ++ "["%char :: mid ++ str_close ++ post)
      by (simpl; rewrite <- app_assoc; reflexivity).
    apply H.
    - rewrite !elem_of_cons. intros [E | [E | E]];
        [discriminate | discriminate | apply elem_of_nil in E; contradiction].
    - exact Hclose.
    - intros Hocc. apply Hnull. unfold sdata, payload.
      simpl in Hocc |- *. rewrite <- app_assoc. exact Hocc.
    - unfold sdata, payload in Hsize. simpl in Hsize |- *.
      rewrite <- app_assoc in Hsize. exact Hsize. }
  split; [exact Hdata |]. unfold onMessage_sdata.
  assert (Hframe : is_event_frame sdata = true)
    by apply is_event_frame_42.
  rewrite Hframe, Hdata.
  case_decide as Hnil; [discriminate |].
  rewrite Hevent. case_decide; [| contradiction]. rewrite Htel.
  destruct (onMessage_telemetry indeterminate qr_solution Solve mpc t)
    as [tr r]. reflexivity.
Qed.


(** X14: the handler works on the text [sdata] that line 79 leaves: the
    characters before the first NUL, [len] of them at most.  When that
    text begins with [42], has a third character, and contains ["null"],
    or lacks a ['['] or a ["}]"], it is echoed on the console and answered
    with the manual-driving message and nothing else: the JSON parser and
    the solver are not reached and the controller object is left as it
    was. *)
Theorem onMessage_manual (mpc : MPC) (T rest : list ascii) (len : nat)
  (c : ascii) (r : list ascii) :
  let sdata := take len T in
  NUL ∉ T ->
  sdata = "4"%char :: "2"%char :: c :: r ->
  occurs str_null sdata \/ "["%char ∉ sdata \/ ~ occurs str_close sdata ->
  onMessage mpc (T ++ NUL :: rest) len
  = ([StdoutLine sdata; SocketText manual_msg], Returned mpc).
Proof.
  intros sdata HT Hshape H. rewrite onMessage_text by assumption.
  fold sdata. rewrite Hshape in *. apply onMessage_sdata_manual. exact H.
Qed.

(** X15: when the text that line 79 leaves (the characters before the
    first NUL, [len] of them at most) is [42] followed by a JSON array
    that ends in ["}]"], the parser is handed that array alone, without
    the prefix and without what follows the last ["}]"]; when the parser
    reads the event name [telemetry] and the eight fields, the handler
    echoes the text on the console and then does exactly what the
    telemetry tick does. *)
Theorem onMessage_telemetry_frame (mpc : MPC) (T rest mid post : list ascii)
  (len : nat) (t : Telemetry) :
  let payload := "["%char :: mid ++ str_close in
  let sdata := "4"%char :: "2"%char :: payload ++ post in
  NUL ∉ T ->
  take len T = sdata ->
  ~ occurs str_close post ->
  ~ occurs str_null sdata ->
  (Z.of_nat (length sdata) < 2 ^ 64)%Z ->
  json_event payload = Some str_telemetry ->
  json_telemetry payload = Some t ->
  hasData sdata = Some payload /\
  onMessage mpc (T ++ NUL :: rest) len
  = (StdoutLine sdata
     :: (TickEvent
         <$> (onMessage_telemetry indeterminate qr_solution Solve mpc t).1),
     match (onMessage_telemetry indeterminate qr_solution Solve mpc t).2 with
     | Ok mpc' => Returned mpc'
     | Abort e => Stopped e
     end).
Proof.
  intros payload sdata HT Htext Hclose Hnull Hsize Hevent Htel.
  rewrite onMessage_text by assumption. rewrite Htext.
  apply onMessage_sdata_telemetry_frame; assumption.
Qed.


End DispatchFacts.

(** ** The further properties, run *)


Lemma transform_waypoints_origin_and_shift_witness :
  exists xv yv,
    transform_waypoints 0 [1; 2; 3; 4] [2; 3; 4; 5] 1 2 PI = Ok (xv, yv) /\
    length xv = 4%nat /\ length yv = 4%nat /\
    exists a b, xv !! 0%nat = Some a /\ yv !! 0%nat = Some b /\ a = 0 /\ b = 0.
Proof.
  eexists _, _. split; [reflexivity |].
  destruct (transform_waypoints_origin_and_shift 0 [1; 2; 3; 4] [2; 3; 4; 5]
              1 2 PI _ _ eq_refl) as (Hx & Hy & Horigin & _).
  split; [exact Hx |]. split; [exact Hy |].
  apply (Horigin 0%nat); reflexivity.
Defined.


Lemma reply_shows_this_event_witness :
  exists tr mpc',
    onMessage_telemetry 0 line_fit steady_Solve idle_mpc line_telemetry
    = (tr, Ok mpc') /\
    exists call vars msg,
      steady_Solve idle_mpc (state call) (coeffs call) = (vars, mpc') /\
      tr = [Cout msg; SleepFor 100; WsSend msg] /\
      next_x msg = waypoints_x line_telemetry /\
      next_y msg = waypoints_y line_telemetry /\
      length (next_x msg) = 4%nat /\
      length (next_y msg) = 4%nat /\
      mpc_x msg = next_path_xs mpc' /\
      mpc_y msg = next_path_ys mpc'.
Proof.
  eexists _, _. split; [reflexivity |].
  apply (reply_shows_this_event 0 line_fit steady_Solve idle_mpc).
  reflexivity.
Defined.

Lemma NUL_not_in_manual_frame : NUL ∉ manual_frame.
Proof. apply (bool_decide_unpack _). vm_compute. exact I. Qed.

Lemma NUL_not_in_line_frame : NUL ∉ line_frame.
Proof. apply (bool_decide_unpack _). vm_compute. exact I. Qed.

Lemma onMessage_manual_witness :
  onMessage 0 line_fit steady_Solve line_json_event line_json_telemetry
    idle_mpc (manual_frame ++ [NUL]) (length manual_frame)
  = ([StdoutLine manual_frame; SocketText manual_msg], Returned idle_mpc).
Proof.
  apply (onMessage_manual 0 line_fit steady_Solve line_json_event
           line_json_telemetry idle_mpc manual_frame [] (length manual_frame)
           "["%char (drop 3 manual_frame)).
  - exact NUL_not_in_manual_frame.
  - reflexivity.
  - left. exists (take 15 manual_frame), (drop 19 manual_frame). reflexivity.
Defined.

Lemma onMessage_telemetry_frame_witness :
  hasData line_frame = Some line_payload /\
  onMessage 0 line_fit steady_Solve line_json_event line_json_telemetry
    idle_mpc (line_frame ++ [NUL]) (length line_frame)
  = (StdoutLine line_frame
     :: (TickEvent
         <$> (onMessage_telemetry 0 line_fit steady_Solve idle_mpc
                line_telemetry).1),
     match (onMessage_telemetry 0 line_fit steady_Solve idle_mpc
              line_telemetry).2 with
     | Ok mpc' => Returned mpc'
     | Abort e => Stopped e
     end).
Proof.
  apply (onMessage_telemetry_frame 0 line_fit steady_Solve line_json_event
           line_json_telemetry idle_mpc line_frame [] line_mid []
           (length line_frame) line_telemetry).
  - exact NUL_not_in_line_frame.
  - reflexivity.
  - intros (u & v & H). destruct u; discriminate.
  - apply str_find_None_inv. vm_compute. reflexivity.
  - vm_compute. reflexivity.
  - vm_compute. reflexivity.
  - vm_compute. reflexivity.
Defined.

